(** * F0 extraction with DIO + Stonemask: a shallow embedding of
      [espnet2/tts/feats_extract/dio.py]

    The class [Dio] post-processes the F0 contour that the external
    estimator returns: frame-count correction, continuous-F0
    interpolation, log transform, duration averaging and batching.

    Conventions of the embedding.
    - A numpy or torch array of floats is a [list Qc]: samples and F0
      values are exact rationals, so [a / b] is the exact quotient that the
      floating-point operation rounds.
    - Python integers are [Z]; array positions returned by [np.where] are
      [nat] (they are never negative).  The entries of a [torch.long]
      tensor are [Z] as well, with the wrap-around of int64 arithmetic
      written out ([int64]).
    - A call that can raise returns a [result]; the exception is recorded.
    - External library functions are either modelled by their documented
      behaviour on the arguments this module passes ([np.pad], [np.where],
      [np.interp], slicing, [torch.stack], [librosa.samples_to_frames]) or
      taken as section variables ([pyworld.dio], [pyworld.stonemask],
      [np.log], [humanfriendly.parse_size]). *)

From Stdlib Require Import ZArith QArith Qcanon Lia Lqa.
From stdpp Require Import base option list numbers strings gmap.

Set Default Proof Using "Type".

(** ** Exceptions and the error monad *)

Inductive exception :=
  | AssertionError
  | AttributeError (name : string)
  | IndexError
  | InvalidSize
  | RuntimeError
  | TypeError
  | ValueError
  | ZeroDivisionError.

Inductive result (A : Type) :=
  | Ok (a : A)
  | Raise (e : exception).
Arguments Ok {A} a.
Arguments Raise {A} e.

Global Instance result_ret : MRet result := λ A a, Ok a.
Global Instance result_bind : MBind result := λ A B f m,
  match m with Ok a => f a | Raise e => Raise e end.
Global Instance result_fmap : FMap result := λ A B f m,
  match m with Ok a => Ok (f a) | Raise e => Raise e end.

Definition raises {A} (m : result A) : Prop := ∃ e, m = Raise e.

Global Instance exception_eq_dec : EqDecision exception.
Proof. solve_decision. Defined.
Global Instance result_eq_dec `{EqDecision A} : EqDecision (result A).
Proof. solve_decision. Defined.

(** [l[i]] for a non-negative position. *)
Definition index {A} (l : list A) (i : nat) : result A :=
  match l !! i with Some a => Ok a | None => Raise IndexError end.

(** [l[-1]]. *)
Definition index_last {A} (l : list A) : result A :=
  match last l with Some a => Ok a | None => Raise IndexError end.

(** ** Python values and the extractor object *)

Inductive value :=
  | VInt (n : Z)
  | VFloat (q : Qc)
  | VBool (b : bool)
  | VNone.

Definition of_optional (o : option Z) : value :=
  match o with Some n => VInt n | None => VNone end.

(** [fs: Union[int, str]] *)
Inductive int_or_str :=
  | IntVal (n : Z)
  | StrVal (s : string).

(** The attributes assigned by [__init__]. *)
Record Dio := {
  fs : Z;
  n_fft : Z;
  hop_length : Z;
  frame_period : Qc;
  f0min : option Z;
  f0max : option Z;
  use_token_averaged_f0 : bool;
  use_continuous_f0 : bool;
  use_log_f0 : bool;
}.

(** Python's [a / b] on integers. *)
Definition true_div (a b : Z) : result Qc :=
  if decide (b = 0%Z) then Raise ZeroDivisionError
  else Ok (Qc_of_Z a / Qc_of_Z b)%Qc.

Section construction.
(** [humanfriendly.parse_size] *)
Variable parse_size : string → result Z.
(** The attributes an instance has after [super().__init__()]: those of
    [AbsFeatsExtract] and [torch.nn.Module]. *)
Variable module_attrs : gmap string value.

Definition __init__ (fs : int_or_str) (n_fft hop_length : Z)
    (f0min f0max : option Z)
    (use_token_averaged_f0 use_continuous_f0 use_log_f0 : bool)
    : result Dio :=
  fs ← match fs with StrVal s => parse_size s | IntVal n => Ok n end;
  frame_period ← true_div (1000 * hop_length) fs;
  Ok {| fs := fs; n_fft := n_fft; hop_length := hop_length;
        frame_period := frame_period;
        f0min := f0min; f0max := f0max;
        use_token_averaged_f0 := use_token_averaged_f0;
        use_continuous_f0 := use_continuous_f0;
        use_log_f0 := use_log_f0 |}.

(** The instance dictionary: one [self.name = ...] per insertion, in the
    order of the assignments of [__init__]. *)
Definition vars (self : Dio) : gmap string value :=
  <["use_log_f0" := VBool self.(use_log_f0)]>
  (<["use_continuous_f0" := VBool self.(use_continuous_f0)]>
  (<["use_token_averaged_f0" := VBool self.(use_token_averaged_f0)]>
  (<["f0max" := of_optional self.(f0max)]>
  (<["f0min" := of_optional self.(f0min)]>
  (<["frame_period" := VFloat self.(frame_period)]>
  (<["hop_length" := VInt self.(hop_length)]>
  (<["n_fft" := VInt self.(n_fft)]>
  (<["fs" := VInt self.(fs)]> module_attrs)))))))).

(** [self.name] *)
Definition getattr (self : Dio) (name : string) : result value :=
  match vars self !! name with
  | Some v => Ok v
  | None => Raise (AttributeError name)
  end.

Definition output_size (self : Dio) : Z := 1.

Definition get_parameters (self : Dio) : result (gmap string value) :=
  fs ← getattr self "fs";
  n_fft ← getattr self "n_fft";
  n_shift ← getattr self "n_shift";
  f0min ← getattr self "f0min";
  f0max ← getattr self "f0max";
  Ok (<["f0max" := f0max]> (<["f0min" := f0min]> (<["n_shift" := n_shift]>
      (<["n_fft" := n_fft]> (<["fs" := fs]> ∅))))).
End construction.

(** ** Array primitives *)

(** [len(a)] as a Python integer. *)
Definition len {A} (l : list A) : Z := Z.of_nat (length l).

(** [a[:stop]] for any integer [stop]: a negative [stop] counts from the
    end. *)
Definition slice_to {A} (stop : Z) (l : list A) : list A :=
  take (Z.to_nat (if decide (stop < 0)%Z then len l + stop else stop)%Z) l.

(** [a[start:stop]] for any integers. *)
Definition slice {A} (start stop : Z) (l : list A) : list A :=
  let norm i := (if decide (i < 0) then Z.max 0 (len l + i) else Z.min i (len l))%Z in
  take (Z.to_nat (norm stop - norm start)) (drop (Z.to_nat (norm start)) l).

(** [np.pad(a, (0, after))], constant mode, zero fill. *)
Definition np_pad_after (after : Z) (l : list Qc) : list Qc :=
  l ++ replicate (Z.to_nat after) 0%Qc.

(** [librosa.samples_to_frames(samples, hop_length, n_fft)]:
    [floor((samples - n_fft // 2) // hop_length)]. *)
Definition samples_to_frames (samples hop_length n_fft : Z) : Z :=
  ((samples - n_fft `div` 2) `div` hop_length)%Z.

(** ** Frame-count correction *)

(** The first two statements of [_adjust_num_frames]. *)
Definition num_frames (self : Dio) (x : list Qc) : Z :=
  let num_frames := samples_to_frames (len x) self.(hop_length) self.(n_fft) in
  (num_frames + 1)%Z.

Definition _adjust_num_frames (self : Dio) (x f0 : list Qc) : list Qc :=
  let num_frames := num_frames self x in
  if decide (num_frames > len f0)%Z then np_pad_after (num_frames - len f0) f0
  else if decide (num_frames < len f0)%Z then slice_to num_frames f0
  else f0.

(** ** Continuous-F0 interpolation *)

(** [np.where(mask)[0]]: the positions at which the mask holds, ascending.
    [where_from i] numbers the positions from [i]. *)
Fixpoint where_from {A} (P : A → Prop) `{∀ a, Decision (P a)}
    (i : nat) (l : list A) : list nat :=
  match l with
  | [] => []
  | a :: l => if decide (P a) then i :: where_from P (S i) l
              else where_from P (S i) l
  end.

Definition np_where {A} (P : A → Prop) `{∀ a, Decision (P a)}
    (l : list A) : list nat :=
  where_from P 0 l.

(** [a[idxs]] for an array of positions. *)
Definition take_at {A} (l : list A) (idxs : list nat) : result (list A) :=
  mapM (index l) idxs.

(** [a[:stop] = v] and [a[start:] = v] for non-negative positions. *)
Definition fill_to {A} (stop : nat) (v : A) (l : list A) : list A :=
  replicate (stop `min` length l) v ++ drop stop l.

Definition fill_from {A} (start : nat) (v : A) (l : list A) : list A :=
  take start l ++ replicate (length l - start) v.

(** The value at [t] of the segment from [(x0, y0)] to [(x1, y1)]:
    [slope * (t - x0) + y0]. *)
Definition segment (x0 : nat) (y0 : Qc) (x1 : nat) (y1 : Qc) (t : nat) : Qc :=
  let slope := ((y1 - y0) / (Qc_of_Z (Z.of_nat x1) - Qc_of_Z (Z.of_nat x0)))%Qc in
  (slope * (Qc_of_Z (Z.of_nat t) - Qc_of_Z (Z.of_nat x0)) + y0)%Qc.

(** [np.interp(t, xp, fp)] for ascending control points [(xp[j], fp[j])],
    with no value outside [xp[0], xp[-1]]: the search for the [j] with
    [xp[j] <= t < xp[j+1]] is a scan from the left. *)
Fixpoint np_interp (t : nat) (pts : list (nat * Qc)) : option Qc :=
  match pts with
  | [] => None
  | (x0, y0) :: rest =>
      if decide (t < x0) then None
      else if decide (t = x0) then Some y0
      else match rest with
           | [] => None
           | (x1, y1) :: _ =>
               if decide (t < x1) then Some (segment x0 y0 x1 y1 t)
               else np_interp t rest
           end
  end.

(** [interp1d(x, y)], linear, bounds checked: the interpolant, called on
    integer positions.  For integer [x] and float [y] it evaluates with
    [np.interp]; [x] comes from [np.where] and is ascending already.  A
    single control point is accepted, as in current scipy. *)
Definition interp1d (x : list nat) (y : list Qc) : result (nat → result Qc) :=
  if decide (length x ≠ length y) then Raise ValueError
  else if decide (length x = 0) then Raise ValueError
  else Ok (λ x_new, match np_interp x_new (zip x y) with
                    | Some v => Ok v
                    | None => Raise ValueError
                    end).

Definition _convert_to_continuous_f0 (f0 : list Qc) : result (list Qc) :=
  if decide (Forall (λ v, v = 0%Qc) f0) then Raise AssertionError else
  (* padding start and end of f0 sequence *)
  start_f0 ← index (filter (λ v, v ≠ 0%Qc) f0) 0;
  end_f0 ← index_last (filter (λ v, v ≠ 0%Qc) f0);
  start_idx ← index (np_where (λ v, v = start_f0) f0) 0;
  end_idx ← index_last (np_where (λ v, v = end_f0) f0);
  let f0 := fill_to start_idx start_f0 f0 in
  let f0 := fill_from end_idx end_f0 f0 in
  (* get non-zero frame index *)
  let nonzero_idxs := np_where (λ v, v ≠ 0%Qc) f0 in
  (* perform linear interpolation *)
  ys ← take_at f0 nonzero_idxs;
  interp_fn ← interp1d nonzero_idxs ys;
  mapM interp_fn (seq 0 (length f0)).

(** ** Log transform *)

(** [a[idxs] = vs] *)
Definition set_at {A} (l : list A) (idxs : list nat) (vs : list A) : list A :=
  foldl (λ acc '(i, v), <[i := v]> acc) l (zip idxs vs).

Section log_transform.
(** [np.log] on one element *)
Variable np_log : Qc → Qc.

(** The body of [if self.use_log_f0:] in [_calculate_f0]. *)
Definition log_nonzero (f0 : list Qc) : result (list Qc) :=
  let nonzero_idxs := np_where (λ v, v ≠ 0%Qc) f0 in
  vs ← take_at f0 nonzero_idxs;
  Ok (set_at f0 nonzero_idxs (np_log <$> vs)).
End log_transform.

(** ** Duration averaging *)

(** The sum of a list of integers, and of a list of rationals. *)
Definition sum_Z (d : list Z) : Z := foldr Z.add 0%Z d.
Definition sum_Qc (l : list Qc) : Qc := foldr Qcplus 0%Qc l.

(** The value that int64 arithmetic gives for the integer [z]: the
    representative of [z] modulo [2^64] between [-2^63] and [2^63 - 1]. *)
Definition int64 (z : Z) : Z := ((z + 2 ^ 63) `mod` 2 ^ 64 - 2 ^ 63)%Z.

(** [d.sum()] of a [torch.long] tensor: the sum of the entries in int64
    arithmetic, which wraps around in whatever order it accumulates. *)
Definition tensor_sum (d : list Z) : Z := int64 (sum_Z d).

(** [d.cumsum(dim=0)] of a [torch.long] tensor, from the running total
    [acc]: every partial sum wraps around. *)
Fixpoint cumsum_from (acc : Z) (d : list Z) : list Z :=
  match d with
  | [] => []
  | n :: d => int64 (acc + n) :: cumsum_from (int64 (acc + n)) d
  end.

Definition cumsum (d : list Z) : list Z := cumsum_from 0 d.

(** [t.mean(dim=0)] of a non-empty one-dimensional tensor. *)
Definition mean (l : list Qc) : Qc :=
  (sum_Qc l / Qc_of_Z (len l))%Qc.

(** [torch.stack] refuses an empty list of tensors. *)
Definition torch_stack {A} (l : list A) : result (list A) :=
  match l with [] => Raise RuntimeError | _ => Ok l end.

Definition _average_by_duration (x : list Qc) (d : list Z) : result (list Qc) :=
  if decide (tensor_sum d ≠ len x) then Raise AssertionError else
  let d_cumsum := 0%Z :: cumsum d in
  let x_avg :=
    (λ '(start, end_),
       let voiced := filter (λ v, v ≠ 0%Qc) (slice start end_ x) in
       if decide (length voiced ≠ 0) then mean voiced else 0%Qc)
    <$> zip (slice_to (-1) d_cumsum) (drop 1 d_cumsum) in
  torch_stack x_avg.

(** ** Batching *)

(** Modelled from the spec: [pad_list], imported from
    [espnet.nets.pytorch_backend.nets_utils], whose source is missing.
    Independently computed sequences of potentially different lengths are
    right-padded with the pad value to the maximum length in the batch to
    form a rectangular output. *)
Definition pad_list (xs : list (list Qc)) (pad_value : Qc) : list (list Qc) :=
  let max_len := max_list (length <$> xs) in
  (λ x, x ++ replicate (max_len - length x) pad_value) <$> xs.

(** ** The extraction call *)

Section extraction.
(** [pyworld.dio(x, fs, f0_floor, f0_ceil, frame_period)]: the raw F0
    contour and its time axis. *)
Variable pyworld_dio :
  list Qc → Z → option Z → option Z → Qc → list Qc * list Qc.
(** [pyworld.stonemask(x, f0, timeaxis, fs)] *)
Variable pyworld_stonemask : list Qc → list Qc → list Qc → Z → list Qc.
Variable np_log : Qc → Qc.

Definition _calculate_f0 (self : Dio) (input : list Qc) : result (list Qc) :=
  let x := input in
  let '(f0, timeaxis) :=
    pyworld_dio x self.(fs) self.(f0min) self.(f0max) self.(frame_period) in
  let f0 := pyworld_stonemask x f0 timeaxis self.(fs) in
  let f0 := _adjust_num_frames self x f0 in
  f0 ← (if self.(use_continuous_f0) then _convert_to_continuous_f0 f0
        else Ok f0);
  f0 ← (if self.(use_log_f0) then log_nonzero np_log f0 else Ok f0);
  Ok f0.

(** [input] is a tensor of shape [(B, T)], given by its rows; [durations]
    and [durations_lengths] default to [None]. *)
Definition forward (self : Dio) (input : list (list Qc))
    (input_lengths : list Z)
    (durations : option (list (list Z)))
    (durations_lengths : option (list Z))
    : result (list (list Qc) * option (list Z)) :=
  pitch ← mapM (_calculate_f0 self) input;
  '(pitch, pitch_lengths) ←
    (if self.(use_token_averaged_f0) then
       match durations with
       | None => Raise TypeError
       | Some durations =>
           pitch ← mapM (λ '(p, d), _average_by_duration p d)
                        (zip pitch durations);
           Ok (pitch, durations_lengths)
       end
     else Ok (pitch, Some (len <$> pitch)));
  let pitch := pad_list pitch 0%Qc in
  Ok (pitch, pitch_lengths).
End extraction.

(** ** Reference configurations and inputs *)

(** The defaults of [__init__], with per-frame output and the optional
    steps switched off. *)
Definition plain_config : Dio :=
  {| fs := 22050; n_fft := 1024; hop_length := 256;
     frame_period := (Qc_of_Z 256000 / Qc_of_Z 22050)%Qc;
     f0min := Some 80%Z; f0max := Some 400%Z;
     use_token_averaged_f0 := false;
     use_continuous_f0 := false;
     use_log_f0 := false |}.

(** A waveform of [n] samples of silence. *)
Definition silence (n : nat) : list Qc := replicate n 0%Qc.

(** The frame count as the specification words it: the library's
    [floor(n / hop_length) + 1] after its adjustment for the FFT size,
    then [+ 1] again. *)
Definition spec_num_frames (n hop_length n_fft : Z) : Z :=
  (((n - n_fft `div` 2) `div` hop_length + 1) + 1)%Z.

(** The defaults of [__init__]: token averaging, continuous F0 and log F0
    all enabled. *)
Definition default_config : Dio :=
  {| fs := 22050; n_fft := 1024; hop_length := 256;
     frame_period := (Qc_of_Z 256000 / Qc_of_Z 22050)%Qc;
     f0min := Some 80%Z; f0max := Some 400%Z;
     use_token_averaged_f0 := true;
     use_continuous_f0 := true;
     use_log_f0 := true |}.

(** Stand-ins for the external estimator, used to run the extraction call
    on concrete batches: a steady 100 Hz contour with one frame per 256
    samples plus one, which the refinement keeps, and a logarithm
    stand-in. *)
Definition steady_dio (x : list Qc) (fs : Z) (f0_floor f0_ceil : option Z)
    (frame_period : Qc) : list Qc * list Qc :=
  let frames := Z.to_nat (len x `div` 256 + 1) in
  (replicate frames (Qc_of_Z 100), Qc_of_Z <$> (Z.of_nat <$> seq 0 frames)).

Definition keep_stonemask (x f0 timeaxis : list Qc) (fs : Z) : list Qc := f0.

Definition halve (v : Qc) : Qc := (v / Qc_of_Z 2)%Qc.

(** ** Notions of the specification *)

(** An F0 contour: every frame is zero (unvoiced) or a positive frequency
    (voiced). *)
Definition f0_contour (f0 : list Qc) : Prop := Forall (λ v, 0 ≤ v)%Qc f0.

Global Instance f0_contour_dec f0 : Decision (f0_contour f0).
Proof. unfold f0_contour. apply _. Defined.

(** Frame [t] is voiced with value [v]. *)
Definition voiced_at (f0 : list Qc) (t : nat) (v : Qc) : Prop :=
  f0 !! t = Some v ∧ v ≠ 0%Qc.

(** Every frame strictly between [i] and [j] is unvoiced. *)
Definition unvoiced_between (f0 : list Qc) (i j : nat) : Prop :=
  ∀ m, i < m < j → f0 !! m = Some 0%Qc.

(** [g] is the contour [f0] after the padding of its start and end: the
    first voiced value [s] (at [a]) fills the frames before it, the last
    voiced value [e] (at [z]) the frames after it, the frames from [a] to
    [z] are kept. *)
Definition padded (f0 g : list Qc) : Prop :=
  length g = length f0 ∧
  ∃ a s z e,
    voiced_at f0 a s ∧ (∀ m, m < a → f0 !! m = Some 0%Qc) ∧
    voiced_at f0 z e ∧ (∀ m, z < m < length f0 → f0 !! m = Some 0%Qc) ∧
    (∀ t, t < a → g !! t = Some s) ∧
    (∀ t, a ≤ t ≤ z → g !! t = f0 !! t) ∧
    (∀ t, z ≤ t < length f0 → g !! t = Some e).

(** The control points handed to the interpolation: the voiced frames with
    their positions, numbered from [i]. *)
Fixpoint control_points (i : nat) (l : list Qc) : list (nat * Qc) :=
  match l with
  | [] => []
  | v :: l => if decide (v ≠ 0%Qc) then (i, v) :: control_points (S i) l
              else control_points (S i) l
  end.

(** The partition of a contour into consecutive runs of the given
    lengths. *)
Fixpoint runs (lengths : list nat) (x : list Qc) : list (list Qc) :=
  match lengths with
  | [] => []
  | n :: lengths => take n x :: runs lengths (drop n x)
  end.

(** The arithmetic mean of the non-zero entries of a run, and zero for a
    run without a non-zero entry. *)
Definition voiced_mean (run : list Qc) : Qc :=
  if decide (Exists (λ v, v ≠ 0%Qc) run)
  then (sum_Qc (filter (λ v, v ≠ 0%Qc) run)
        / Qc_of_Z (len (filter (λ v, v ≠ 0%Qc) run)))%Qc
  else 0%Qc.

(** Resolve the lookup of a literal attribute name in a chain of
    insertions. *)
Ltac attr_lookup :=
  repeat first [rewrite lookup_insert_eq | rewrite lookup_insert_ne by done].

(** Settle a decidable closed proposition by evaluation. *)
Ltac by_compute := refine (bool_decide_unpack _ _); vm_compute; exact I.

(** * Properties *)

(** ** Construction *)

(** C8: whenever construction succeeds, the sample rate it resolved is
    non-zero and the stored [frame_period] is exactly
    [1000 * hop_length / fs] for the stored [hop_length] and [fs], which
    are the hop length passed in and the sample rate given as an integer
    or parsed from the string. *)
Theorem frame_period_exact parse_size rate n_fft hop f0min f0max avg cont log self :
  __init__ parse_size rate n_fft hop f0min f0max avg cont log = Ok self →
  match rate with IntVal n => Ok n | StrVal s => parse_size s end
    = Ok self.(fs) ∧
  self.(fs) ≠ 0%Z ∧
  self.(hop_length) = hop ∧
  self.(frame_period)
    = (Qc_of_Z 1000 * Qc_of_Z self.(hop_length) / Qc_of_Z self.(fs))%Qc.
Proof.
  unfold __init__. intros Hinit.
  destruct (match rate with StrVal s => parse_size s | IntVal n => Ok n end)
    as [r|e] eqn:Hrate; [|discriminate].
  assert (match rate with IntVal n => Ok n | StrVal s => parse_size s end = Ok r)
    as Hrate' by (by destruct rate).
  cbn in Hinit. unfold true_div in Hinit.
  destruct (decide (r = 0%Z)) as [|Hr]; [discriminate|].
  cbn in Hinit. injection Hinit as <-. cbn.
  by rewrite Z2Qc_inj_mul.
Qed.

Lemma frame_period_exact_witness :
  ∃ self,
    __init__ (λ _, Ok 22050%Z) (StrVal "22.05k") 1024 256 (Some 80%Z)
      (Some 400%Z) true true true = Ok self ∧
    self.(frame_period) = (Qc_of_Z 1000 * Qc_of_Z 256 / Qc_of_Z 22050)%Qc.
Proof.
  eexists. split; [reflexivity|].
  refine (proj2 (proj2 (proj2 (frame_period_exact (λ _, Ok 22050%Z)
    (StrVal "22.05k") 1024 256 (Some 80%Z) (Some 400%Z) true true true _ _)))).
  reflexivity.
Defined.

(** C9: on every constructed extractor [get_parameters] raises the
    attribute error for [n_shift], provided the parent classes define no
    attribute of that name: [__init__] stores the hop length under
    [hop_length] only. *)
Theorem get_parameters_raises parse_size module_attrs
    rate n_fft hop f0min f0max avg cont log self :
  module_attrs !! "n_shift" = None →
  __init__ parse_size rate n_fft hop f0min f0max avg cont log = Ok self →
  get_parameters module_attrs self = Raise (AttributeError "n_shift").
Proof.
  intros Hbase _. unfold get_parameters, getattr, vars.
  do 2 (attr_lookup; cbn). attr_lookup. by rewrite Hbase.
Qed.

Lemma get_parameters_raises_witness :
  ∃ self,
    __init__ (λ _, Raise InvalidSize) (IntVal 22050) 1024 256 (Some 80%Z)
      (Some 400%Z) true true true = Ok self ∧
    get_parameters {["training" := VBool true]} self
      = Raise (AttributeError "n_shift").
Proof.
  eexists. split; [reflexivity|].
  eapply (get_parameters_raises (λ _, Raise InvalidSize)
            {["training" := VBool true]} (IntVal 22050)).
  - reflexivity.
  - reflexivity.
Defined.

(** ** Frame-count correction *)

Lemma len_app {A} (l k : list A) : len (l ++ k) = (len l + len k)%Z.
Proof. unfold len. rewrite length_app. lia. Qed.

Lemma len_replicate {A} n (a : A) : len (replicate n a) = Z.of_nat n.
Proof. unfold len. by rewrite length_replicate. Qed.

Lemma len_take {A} n (l : list A) : len (take n l) = Z.min (Z.of_nat n) (len l).
Proof. unfold len. rewrite length_take. lia. Qed.

Lemma slice_to_nonneg {A} (stop : Z) (l : list A) :
  (0 ≤ stop)%Z → slice_to stop l = take (Z.to_nat stop) l.
Proof. intros ?. unfold slice_to. case_decide; [lia|done]. Qed.

Lemma adjust_num_frames_len self x f0 :
  (0 ≤ num_frames self x)%Z →
  len (_adjust_num_frames self x f0) = num_frames self x.
Proof.
  intros Hpos. unfold _adjust_num_frames, np_pad_after.
  repeat case_decide.
  - rewrite len_app, len_replicate. lia.
  - rewrite slice_to_nonneg, len_take by done. lia.
  - lia.
Qed.

(** C1 (amended): when the expected frame count is not negative, the
    corrected contour has exactly that many frames; a shorter contour is
    the original followed by zeros, a longer one is cut to its first
    [expected] frames. *)
Theorem adjust_num_frames_spec self x f0 :
  (0 ≤ num_frames self x)%Z →
  len (_adjust_num_frames self x f0) = num_frames self x ∧
  ((num_frames self x > len f0)%Z →
     _adjust_num_frames self x f0
       = f0 ++ replicate (Z.to_nat (num_frames self x) - length f0) 0%Qc ∧
     take (length f0) (_adjust_num_frames self x f0) = f0) ∧
  ((num_frames self x < len f0)%Z →
     _adjust_num_frames self x f0 = take (Z.to_nat (num_frames self x)) f0).
Proof.
  intros Hpos. unfold _adjust_num_frames.
  set (expected := num_frames self x) in *. unfold np_pad_after.
  repeat case_decide; split_and!; try (intros; lia).
  - rewrite len_app, len_replicate. lia.
  - intros _. replace (Z.to_nat (expected - len f0))
      with (Z.to_nat expected - length f0) by (unfold len; lia).
    split; [done|]. by rewrite take_app_length.
  - rewrite slice_to_nonneg, len_take by done. lia.
  - intros _. by apply slice_to_nonneg.
Qed.

Lemma adjust_num_frames_spec_witness :
  len (_adjust_num_frames plain_config (silence 1000) [Qc_of_Z 120])
    = num_frames plain_config (silence 1000) ∧
  _adjust_num_frames plain_config (silence 1000)
      [Qc_of_Z 120; Qc_of_Z 121; Qc_of_Z 122]
    = [Qc_of_Z 120; Qc_of_Z 121].
Proof.
  split.
  - apply (adjust_num_frames_spec plain_config (silence 1000) [Qc_of_Z 120]).
    vm_compute. discriminate.
  - apply (adjust_num_frames_spec plain_config (silence 1000)
             [Qc_of_Z 120; Qc_of_Z 121; Qc_of_Z 122]).
    + vm_compute. discriminate.
    + reflexivity.
Defined.

(** C1 as stated fails on a waveform shorter than [n_fft // 2 - hop_length]
    samples: for 100 samples the expected count is [-1], below the length
    of the one-frame contour, and the slice [f0[:-1]] leaves no frame, so
    the output length is [0] and not the expected count. *)
Lemma adjust_num_frames_short_waveform :
  num_frames plain_config (silence 100) = (-1)%Z ∧
  (num_frames plain_config (silence 100) < len [Qc_of_Z 100])%Z ∧
  _adjust_num_frames plain_config (silence 100) [Qc_of_Z 100] = [] ∧
  len (_adjust_num_frames plain_config (silence 100) [Qc_of_Z 100])
    ≠ num_frames plain_config (silence 100).
Proof. split_and!; [reflexivity|reflexivity|reflexivity|vm_compute; discriminate]. Qed.

(** C2 (amended): the expected frame count is the library's
    [samples_to_frames] result, [floor((n - n_fft // 2) / hop_length)],
    plus one: a single [+ 1], added in this module.  When it is not
    negative it is the number of frames of the corrected contour. *)
Theorem num_frames_formula self x f0 :
  num_frames self x
    = (samples_to_frames (len x) self.(hop_length) self.(n_fft) + 1)%Z ∧
  num_frames self x
    = ((len x - self.(n_fft) `div` 2) `div` self.(hop_length) + 1)%Z ∧
  ((0 ≤ (len x - self.(n_fft) `div` 2) `div` self.(hop_length) + 1)%Z →
   len (_adjust_num_frames self x f0)
     = ((len x - self.(n_fft) `div` 2) `div` self.(hop_length) + 1)%Z).
Proof.
  split_and!; [done..|]. intros Hpos.
  by rewrite adjust_num_frames_len.
Qed.

Lemma num_frames_formula_witness :
  len (_adjust_num_frames plain_config (silence 4410)
         (replicate 18 (Qc_of_Z 100))) = 16%Z.
Proof.
  apply (num_frames_formula plain_config (silence 4410)
           (replicate 18 (Qc_of_Z 100))).
  vm_compute. discriminate.
Defined.

(** C2 as stated fails: for 4410 samples with the default hop length and
    FFT size the expected count is 16, one less than the count with two
    increments (17), and not the unadjusted count with two increments
    either (19). *)
Lemma num_frames_single_increment :
  num_frames plain_config (silence 4410) = 16%Z ∧
  num_frames plain_config (silence 4410)
    ≠ spec_num_frames (len (silence 4410)) 256 1024 ∧
  num_frames plain_config (silence 4410)
    ≠ ((len (silence 4410) `div` 256 + 1) + 1)%Z.
Proof. split_and!; [reflexivity|vm_compute; discriminate..]. Qed.

(** ** Omitted durations *)

(** C10: with token averaging enabled, the extraction call raises for
    every batch when [durations] is [None]. *)
Theorem forward_requires_durations dio stonemask np_log self
    input input_lengths durations_lengths :
  self.(use_token_averaged_f0) = true →
  raises (forward dio stonemask np_log self input input_lengths None
            durations_lengths).
Proof.
  intros Havg. unfold forward, raises.
  destruct (mapM _ input) as [pitch|e]; cbn; [|by eexists].
  rewrite Havg. cbn. by eexists.
Qed.

Lemma forward_requires_durations_witness :
  raises (forward steady_dio keep_stonemask halve default_config
            [silence 1000; silence 1000] [1000%Z; 700%Z] None None).
Proof.
  apply (forward_requires_durations steady_dio keep_stonemask halve
           default_config).
  reflexivity.
Defined.

(** ** Positions and fancy indexing *)

Lemma mapM_cons {A B} (f : A → result B) a l :
  mapM f (a :: l) = b ← f a; k ← mapM f l; Ok (b :: k).
Proof. done. Qed.

Lemma index_app_length {A} (pre suf : list A) a :
  index (pre ++ a :: suf) (length pre) = Ok a.
Proof. unfold index. by rewrite list_lookup_middle. Qed.

Lemma cons_middle_snoc {A} (pre suf : list A) a :
  pre ++ a :: suf = (pre ++ [a]) ++ suf.
Proof. by rewrite <-app_assoc. Qed.

(** Reading an array at the positions of a mask selects the masked
    elements, [a[np.where(mask)[0]] == a[mask]]. *)
Lemma take_at_where_from {A} (P : A → Prop) `{∀ a, Decision (P a)}
    (pre suf : list A) :
  take_at (pre ++ suf) (where_from P (length pre) suf) = Ok (filter P suf).
Proof.
  revert pre. induction suf as [|a suf IH]; intros pre; [done|].
  cbn [where_from]. rewrite filter_cons.
  pose proof (IH (pre ++ [a])) as IH'.
  rewrite length_app, Nat.add_1_r, <-cons_middle_snoc in IH'.
  destruct (decide (P a)); [|done].
  unfold take_at in *. rewrite mapM_cons, index_app_length. cbn.
  by rewrite IH'.
Qed.

Lemma take_at_np_where {A} (P : A → Prop) `{∀ a, Decision (P a)} (l : list A) :
  take_at l (np_where P l) = Ok (filter P l).
Proof. apply (take_at_where_from P [] l). Qed.

(** Writing [f] of the masked elements back at the positions of the mask
    maps [f] over the masked elements and leaves the others. *)
Lemma set_at_where_from {A} (P : A → Prop) `{∀ a, Decision (P a)}
    (f : A → A) (pre suf : list A) :
  set_at (pre ++ suf) (where_from P (length pre) suf) (f <$> filter P suf)
  = pre ++ ((λ a, if decide (P a) then f a else a) <$> suf).
Proof.
  revert pre. induction suf as [|a suf IH]; intros pre; [done|].
  cbn [where_from]. rewrite filter_cons, fmap_cons.
  destruct (decide (P a)).
  - rewrite fmap_cons. unfold set_at. cbn [zip zip_with foldl].
    replace (<[length pre:=f a]> (pre ++ a :: suf))
      with ((pre ++ [f a]) ++ suf).
    + pose proof (IH (pre ++ [f a])) as IH'.
      rewrite length_app, Nat.add_1_r in IH'. unfold set_at in IH'.
      by rewrite IH', <-app_assoc.
    + rewrite <-app_assoc. cbn.
      by rewrite <-(Nat.add_0_r (length pre)), insert_app_r.
  - pose proof (IH (pre ++ [a])) as IH'.
    rewrite length_app, Nat.add_1_r, <-!cons_middle_snoc in IH'.
    exact IH'.
Qed.

(** ** Log transform *)

Lemma log_nonzero_map np_log f0 :
  log_nonzero np_log f0
  = Ok ((λ v, if decide (v ≠ 0%Qc) then np_log v else v) <$> f0).
Proof.
  unfold log_nonzero. rewrite take_at_np_where. cbn.
  f_equal. apply (set_at_where_from _ np_log [] f0).
Qed.

(** C5: the log step succeeds and keeps the length; a strictly positive
    frame [v] becomes [np_log v], a zero frame stays zero, and in an F0
    contour every frame that is not strictly positive is returned as it
    is. *)
Theorem log_transform_spec np_log f0 :
  ∃ out,
    log_nonzero np_log f0 = Ok out ∧
    length out = length f0 ∧
    ∀ i v, f0 !! i = Some v →
      ((0 < v)%Qc → out !! i = Some (np_log v)) ∧
      (v = 0%Qc → out !! i = Some 0%Qc) ∧
      (f0_contour f0 → ¬ (0 < v)%Qc → out !! i = Some v).
Proof.
  eexists. split; [apply log_nonzero_map|].
  split; [by rewrite length_fmap|].
  intros i v Hi. rewrite list_lookup_fmap, Hi. cbn.
  split_and!.
  - intros Hpos. rewrite decide_True; [done|].
    intros ->. by apply (Qclt_not_eq _ _ Hpos).
  - intros ->. by rewrite decide_False by (by intros []).
  - intros Hf0 Hnpos.
    assert (0 ≤ v)%Qc as Hv by (by eapply (Forall_lookup_1 _ _ _ _ Hf0)).
    rewrite decide_False; [done|].
    intros Hne. apply Hnpos. destruct (Qcle_lt_or_eq _ _ Hv); [done|].
    by destruct Hne.
Qed.

Lemma log_transform_spec_witness :
  ∃ out,
    log_nonzero halve [Qc_of_Z 100; 0%Qc; Qc_of_Z 220] = Ok out ∧
    out !! 2 = Some (halve (Qc_of_Z 220)) ∧
    out !! 1 = Some 0%Qc ∧
    (¬ (0 < 0)%Qc → out !! 1 = Some 0%Qc).
Proof.
  destruct (log_transform_spec halve [Qc_of_Z 100; 0%Qc; Qc_of_Z 220])
    as (out & Hout & _ & Hframes).
  exists out. split; [exact Hout|]. split_and!.
  - apply (proj1 (Hframes 2 (Qc_of_Z 220) eq_refl)). by_compute.
  - apply (proj1 (proj2 (Hframes 1 0%Qc eq_refl))). reflexivity.
  - apply (proj2 (proj2 (Hframes 1 0%Qc eq_refl))). by_compute.
Defined.

(** ** Duration averaging *)

Lemma slice_nonneg {A} (start n : Z) (x : list A) :
  (0 ≤ start)%Z → (0 ≤ n)%Z →
  slice start (start + n) x = take (Z.to_nat n) (drop (Z.to_nat start) x).
Proof.
  intros Hstart Hn. unfold slice. rewrite !decide_False by lia.
  destruct (decide (start ≤ len x)%Z) as [Hle|Hgt].
  - rewrite (Z.min_l start) by done.
    destruct (decide (start + n ≤ len x)%Z).
    + rewrite Z.min_l by done. f_equal. lia.
    + rewrite Z.min_r by lia.
      rewrite !take_ge; [done|rewrite length_drop; unfold len in *; lia..].
  - rewrite !(drop_ge x) by (unfold len in *; lia). by rewrite !take_nil.
Qed.

Lemma slice_boundaries (c : Z) (cs : list Z) :
  zip (slice_to (-1) (c :: cs)) (drop 1 (c :: cs)) = zip (c :: cs) cs.
Proof.
  unfold slice_to. rewrite decide_True by lia. cbn [drop].
  replace (Z.to_nat (len (c :: cs) + -1)) with (length cs)
    by (unfold len; cbn [length]; lia).
  apply zip_with_take_l.
Qed.

Lemma voiced_mean_filter (run : list Qc) :
  (if decide (length (filter (λ v, v ≠ 0%Qc) run) ≠ 0)
   then mean (filter (λ v, v ≠ 0%Qc) run) else 0%Qc)
  = voiced_mean run.
Proof.
  unfold voiced_mean, mean.
  destruct (decide (Exists (λ v, v ≠ 0%Qc) run)) as [Hex|Hnex].
  - rewrite decide_True; [done|].
    apply Exists_exists in Hex as (v & Hin & Hv). intros Hlen.
    apply nil_length_inv in Hlen.
    by apply (filter_nil_not_elem_of _ _ v Hlen).
  - rewrite decide_False; [done|]. intros Hlen. apply Hlen.
    destruct (filter _ run) as [|v k] eqn:Hf; [done|]. destruct Hnex.
    assert (v ∈ filter (λ v, v ≠ 0%Qc) run) as Hin by (rewrite Hf; left).
    apply list_elem_of_filter in Hin as [Hv Hin].
    apply Exists_exists. eauto.
Qed.

Lemma int64_small (z : Z) : (- 2 ^ 63 ≤ z < 2 ^ 63)%Z → int64 z = z.
Proof. intros Hz. unfold int64. rewrite Z.mod_small; lia. Qed.

Lemma sum_Z_nonneg (d : list Z) : Forall (λ n, 0 ≤ n)%Z d → (0 ≤ sum_Z d)%Z.
Proof. induction 1 as [|n d Hn Hd IH]; cbn; [done|]. unfold sum_Z in IH. lia. Qed.

(** Durations that are not negative and sum to less than [2^63] are
    summed without wrap-around. *)
Lemma tensor_sum_small (d : list Z) :
  Forall (λ n, 0 ≤ n)%Z d → (sum_Z d < 2 ^ 63)%Z → tensor_sum d = sum_Z d.
Proof.
  intros Hd Hsum. apply int64_small.
  pose proof (sum_Z_nonneg d Hd). lia.
Qed.

(** The tokens computed from the cumulative boundaries are the means over
    the consecutive runs of the contour, when no partial sum wraps
    around. *)
Lemma tokens_runs (x : list Qc) (d : list Z) (c : Z) :
  (0 ≤ c)%Z → Forall (λ n, 0 ≤ n)%Z d → (c + sum_Z d < 2 ^ 63)%Z →
  (λ '(start, end_),
     let voiced := filter (λ v, v ≠ 0%Qc) (slice start end_ x) in
     if decide (length voiced ≠ 0) then mean voiced else 0%Qc)
    <$> zip (c :: cumsum_from c d) (cumsum_from c d)
  = voiced_mean <$> runs (Z.to_nat <$> d) (drop (Z.to_nat c) x).
Proof.
  intros Hc Hd. revert c Hc.
  match goal with |- context [fmap ?f _ = _] => set (token := f) end.
  induction Hd as [|n d Hn Hd IH]; intros c Hc Hsum; [done|].
  change (sum_Z (n :: d)) with (n + sum_Z d)%Z in Hsum.
  pose proof (sum_Z_nonneg d Hd) as Hrest.
  change (cumsum_from c (n :: d))
    with (int64 (c + n) :: cumsum_from (int64 (c + n)) d).
  rewrite (int64_small (c + n)) by lia.
  change (zip (c :: (c + n)%Z :: cumsum_from (c + n) d)
              ((c + n)%Z :: cumsum_from (c + n) d))
    with ((c, (c + n)%Z)
          :: zip ((c + n)%Z :: cumsum_from (c + n) d) (cumsum_from (c + n) d)).
  rewrite (fmap_cons Z.to_nat). cbn [runs].
  rewrite !fmap_cons, IH by lia. f_equal.
  - unfold token. cbn zeta. by rewrite slice_nonneg, voiced_mean_filter.
  - rewrite drop_drop. do 3 f_equal. lia.
Qed.

Lemma runs_length lengths x : length (runs lengths x) = length lengths.
Proof. revert x. induction lengths; intros; cbn; auto. Qed.

Lemma runs_concat lengths x :
  sum_list lengths = length x → concat (runs lengths x) = x.
Proof.
  revert x. induction lengths as [|n lengths IH]; intros x Hsum; cbn in *.
  - symmetry. by apply nil_length_inv.
  - rewrite IH; [apply take_drop|]. rewrite length_drop. lia.
Qed.

Lemma sum_Z_to_nat (d : list Z) :
  Forall (λ n, 0 ≤ n)%Z d → Z.of_nat (sum_list (Z.to_nat <$> d)) = sum_Z d.
Proof. induction 1 as [|n d Hn Hd IH]; cbn; [done|]. unfold sum_Z in IH. lia. Qed.

(** C6 (amended): the call raises the assertion error when the int64 sum
    of the durations, which wraps around, differs from the number of
    frames; that is so whenever durations that are not negative and sum
    to less than [2^63] do not sum to the number of frames.  For a
    non-empty sequence of non-negative durations that sum to the number
    of frames of a contour of fewer than [2^63] frames, the contour is the
    concatenation of consecutive runs of those lengths and the call
    returns one value per token: the arithmetic mean of the non-zero
    entries of the token's run, or zero when the run has none. *)
Theorem average_by_duration_spec (x : list Qc) (d : list Z) :
  (tensor_sum d ≠ len x → _average_by_duration x d = Raise AssertionError) ∧
  (Forall (λ n, 0 ≤ n)%Z d → (sum_Z d < 2 ^ 63)%Z → sum_Z d ≠ len x →
     _average_by_duration x d = Raise AssertionError) ∧
  (sum_Z d = len x → (len x < 2 ^ 63)%Z → Forall (λ n, 0 ≤ n)%Z d → d ≠ [] →
     _average_by_duration x d = Ok (voiced_mean <$> runs (Z.to_nat <$> d) x) ∧
     concat (runs (Z.to_nat <$> d) x) = x ∧
     length (voiced_mean <$> runs (Z.to_nat <$> d) x) = length d).
Proof.
  unfold _average_by_duration. split_and!.
  - intros Hsum. by rewrite decide_True.
  - intros Hd Hsmall Hsum. rewrite decide_True; [done|].
    by rewrite tensor_sum_small.
  - intros Hsum Hlen Hd Hne.
    rewrite decide_False by (rewrite tensor_sum_small by (done || lia); auto).
    pose proof (tokens_runs x d 0 (Z.le_refl 0) Hd ltac:(lia)) as Htokens.
    unfold cumsum. cbv zeta in *. rewrite slice_boundaries, Htokens.
    cbn [Z.to_nat drop]. split_and!.
    + destruct d as [|n d]; [done|]. done.
    + apply runs_concat. apply Nat2Z.inj. by rewrite sum_Z_to_nat.
    + by rewrite length_fmap, runs_length, length_fmap.
Qed.

Lemma average_by_duration_spec_witness :
  _average_by_duration
    [Qc_of_Z 1; 0%Qc; Qc_of_Z 3; 0%Qc; 0%Qc; Qc_of_Z 4] [2; 1; 0; 3]%Z
  = Ok (voiced_mean <$>
          [[Qc_of_Z 1; 0%Qc]; [Qc_of_Z 3]; []; [0%Qc; 0%Qc; Qc_of_Z 4]]) ∧
  _average_by_duration [Qc_of_Z 1] [2]%Z = Raise AssertionError ∧
  _average_by_duration [Qc_of_Z 1] [3; -1]%Z = Raise AssertionError.
Proof.
  pose proof (average_by_duration_spec
                [Qc_of_Z 1; 0%Qc; Qc_of_Z 3; 0%Qc; 0%Qc; Qc_of_Z 4]
                [2; 1; 0; 3]%Z) as (_ & _ & Hruns).
  pose proof (average_by_duration_spec [Qc_of_Z 1] [2]%Z) as (_ & Hplain & _).
  pose proof (average_by_duration_spec [Qc_of_Z 1] [3; -1]%Z) as (Hsum & _ & _).
  split_and!.
  - apply Hruns.
    + reflexivity.
    + reflexivity.
    + by_compute.
    + discriminate.
  - apply Hplain.
    + by_compute.
    + reflexivity.
    + vm_compute. discriminate.
  - apply Hsum. vm_compute. discriminate.
Defined.

(** C6 as stated fails in two ways.  For an utterance without tokens the
    empty duration sequence sums to the length of the empty contour, yet
    the call raises, as [torch.stack] is given no value.  And durations
    whose sum wraps around to the number of frames pass the assertion
    though they do not sum to it: the call returns tokens. *)
Lemma average_by_duration_edge_cases :
  (sum_Z [] = len ([] : list Qc) ∧
   _average_by_duration [] [] = Raise RuntimeError) ∧
  (sum_Z [2 ^ 63 - 1; 2 ^ 63 - 1; 4]%Z ≠ len [Qc_of_Z 1; Qc_of_Z 2] ∧
   Forall (λ n, 0 ≤ n)%Z [2 ^ 63 - 1; 2 ^ 63 - 1; 4]%Z ∧
   _average_by_duration [Qc_of_Z 1; Qc_of_Z 2]
     [2 ^ 63 - 1; 2 ^ 63 - 1; 4]%Z
   = Ok [(Qc_of_Z 3 / Qc_of_Z 2)%Qc; 0%Qc; (Qc_of_Z 3 / Qc_of_Z 2)%Qc]).
Proof. split_and!; try done; by_compute. Qed.

(** ** Continuous-F0 interpolation *)

(** *** Masks and positions *)

Lemma where_from_app {A} (P : A → Prop) `{∀ a, Decision (P a)} i (l k : list A) :
  where_from P i (l ++ k) = where_from P i l ++ where_from P (i + length l) k.
Proof.
  revert i. induction l as [|a l IH]; intros i; cbn.
  - by rewrite Nat.add_0_r.
  - rewrite IH, <-Nat.add_succ_comm. by destruct (decide (P a)).
Qed.

Lemma where_from_none {A} (P : A → Prop) `{∀ a, Decision (P a)} i (l : list A) :
  Forall (λ a, ¬ P a) l → where_from P i l = [].
Proof.
  intros Hl. revert i. induction Hl as [|a l Ha Hl IH]; intros i; cbn; [done|].
  by rewrite decide_False.
Qed.

Lemma where_from_length {A} (P : A → Prop) `{∀ a, Decision (P a)} i (l : list A) :
  length (where_from P i l) = length (filter P l).
Proof.
  revert i. induction l as [|a l IH]; intros i; [done|].
  cbn [where_from]. rewrite filter_cons.
  destruct (decide (P a)); cbn [length]; by rewrite IH.
Qed.

Lemma zip_where_filter i (l : list Qc) :
  zip (where_from (λ v, v ≠ 0%Qc) i l) (filter (λ v, v ≠ 0%Qc) l)
  = control_points i l.
Proof.
  revert i. induction l as [|v l IH]; intros i; [done|].
  cbn [where_from control_points]. rewrite filter_cons.
  destruct (decide (v ≠ 0%Qc)); [|done].
  cbn [zip zip_with]. f_equal. apply IH.
Qed.

Lemma filter_zeros n : filter (λ v, v ≠ 0%Qc) (replicate n 0%Qc) = [].
Proof.
  induction n as [|n IH]; [done|].
  cbn [replicate]. by rewrite filter_cons_False by (by intros []).
Qed.

Lemma control_points_app i (l k : list Qc) :
  control_points i (l ++ k)
  = control_points i l ++ control_points (i + length l) k.
Proof.
  revert i. induction l as [|a l IH]; intros i; cbn.
  - by rewrite Nat.add_0_r.
  - rewrite IH, <-Nat.add_succ_comm. by destruct (decide (a ≠ 0%Qc)).
Qed.

Lemma control_points_zeros i n : control_points i (replicate n 0%Qc) = [].
Proof.
  revert i. induction n as [|n IH]; intros i; cbn; [done|].
  by rewrite decide_False by (by intros []).
Qed.

Lemma control_points_bound i (l : list Qc) x y :
  (x, y) ∈ control_points i l → i ≤ x < i + length l.
Proof.
  revert i. induction l as [|v l IH]; intros i; cbn; [by intros ?%elem_of_nil|].
  destruct (decide (v ≠ 0%Qc)).
  - intros [[= -> ->]|Hin%IH]%elem_of_cons; lia.
  - intros Hin%IH. lia.
Qed.

(** *** The voiced span of a contour *)

Lemma split_first_voiced (l : list Qc) :
  Forall (λ v, v = 0%Qc) l ∨
  ∃ a s tl, l = replicate a 0%Qc ++ s :: tl ∧ s ≠ 0%Qc.
Proof.
  induction l as [|v l IH]; [by left|].
  destruct (decide (v = 0%Qc)) as [->|Hv].
  - destruct IH as [Hz|(a & s & tl & -> & Hs)].
    + left. by constructor.
    + right. by exists (S a), s, tl.
  - right. by exists 0, v, l.
Qed.

Lemma split_last_voiced (l : list Qc) :
  Forall (λ v, v = 0%Qc) l ∨
  ∃ ini e b, l = ini ++ e :: replicate b 0%Qc ∧ e ≠ 0%Qc.
Proof.
  induction l as [|v l IH]; [by left|].
  destruct IH as [Hz|(ini & e & b & -> & He)].
  - destruct (decide (v = 0%Qc)) as [->|Hv].
    + left. by constructor.
    + right. exists [], v, (length l). split; [|done]. cbn. f_equal.
      clear -Hz. induction Hz as [|w l -> _ IH]; cbn; by f_equal.
  - right. by exists (v :: ini), e, b.
Qed.

Lemma Forall_zero_replicate (l : list Qc) :
  Forall (λ v, v = 0%Qc) l ↔ l = replicate (length l) 0%Qc.
Proof.
  split.
  - induction 1 as [|w l -> _ IH]; cbn; by f_equal.
  - intros ->. by apply Forall_replicate.
Qed.

(** *** The interpolant on the control points *)

(** Control points to the left of [t] do not matter when the next one is
    not beyond [t]. *)
Lemma np_interp_skip t (left_pts : list (nat * Qc)) x0 y0 rest :
  Forall (λ p, p.1 < t) left_pts → x0 ≤ t →
  np_interp t (left_pts ++ (x0, y0) :: rest) = np_interp t ((x0, y0) :: rest).
Proof.
  intros Hleft Hx0.
  induction Hleft as [|[x y] pts Hx Hleft IH]; [done|].
  cbn [app]. cbn in Hx. cbn [np_interp].
  rewrite !(decide_False (P := t < x)), !(decide_False (P := t = x)) by lia.
  destruct pts as [|[x' y'] pts'].
  - cbn [app]. by rewrite (decide_False (P := t < x0)) by lia.
  - cbn [app]. apply Forall_cons_1 in Hleft as [Hx' _]. cbn in Hx'.
    by rewrite (decide_False (P := t < x')) by lia.
Qed.

Lemma control_points_left i (l : list Qc) :
  Forall (λ p, p.1 < i + length l) (control_points i l).
Proof.
  apply Forall_forall. intros [x y] Hin%control_points_bound. cbn. lia.
Qed.

(** At a voiced frame the interpolant returns the frame. *)
Lemma np_interp_voiced i (l : list Qc) k v :
  l !! k = Some v → v ≠ 0%Qc →
  np_interp (i + k) (control_points i l) = Some v.
Proof.
  intros Hk Hv. pose proof (lookup_lt_Some _ _ _ Hk) as Hlt.
  rewrite <-(take_drop_middle l k v Hk), control_points_app.
  cbn [control_points]. rewrite decide_True by done.
  pose proof (control_points_left i (take k l)) as Hleft.
  rewrite length_take, Nat.min_l in * by lia.
  rewrite np_interp_skip by done. cbn [np_interp].
  by rewrite decide_False, decide_True by lia.
Qed.

(** Inside an unvoiced gap the interpolant is on the segment between the
    voiced frames around it. *)
Lemma np_interp_gap i (l : list Qc) p a q b k :
  l !! p = Some a → a ≠ 0%Qc → l !! q = Some b → b ≠ 0%Qc →
  p < k < q → (∀ m, p < m < q → l !! m = Some 0%Qc) →
  np_interp (i + k) (control_points i l)
  = Some (segment (i + p) a (i + q) b (i + k)).
Proof.
  intros Hp Ha Hq Hb Hk Hgap.
  pose proof (lookup_lt_Some _ _ _ Hq) as Hlt.
  assert (drop (S p) l !! (q - S p) = Some b) as Hq'.
  { rewrite lookup_drop. rewrite <-Hq. f_equal. lia. }
  assert (take (q - S p) (drop (S p) l) = replicate (q - S p) 0%Qc) as Hmid.
  { apply list_eq_same_length with (q - S p).
    - by rewrite length_replicate.
    - rewrite length_take, length_drop. lia.
    - intros m u w Hm. rewrite lookup_take_lt, lookup_drop by done.
      rewrite Hgap by lia. rewrite lookup_replicate_2 by done. congruence. }
  rewrite <-(take_drop_middle l p a Hp).
  rewrite <-(take_drop_middle (drop (S p) l) (q - S p) b Hq'), Hmid.
  rewrite control_points_app. cbn [control_points].
  rewrite decide_True by done.
  rewrite control_points_app, control_points_zeros. cbn [app control_points].
  rewrite decide_True by done.
  pose proof (control_points_left i (take p l)) as Hleft.
  rewrite !length_take, !length_replicate, Nat.min_l in * by lia.
  rewrite np_interp_skip;
    [|eapply Forall_impl; [done|]; intros [??]; cbn; lia|lia].
  cbn [np_interp]. repeat case_decide; try lia.
  do 2 f_equal. lia.
Qed.

(** *** Sign of the interpolated values *)

Lemma Qc_of_nat_lt (i j : nat) :
  i < j → (Qc_of_Z (Z.of_nat i) < Qc_of_Z (Z.of_nat j))%Qc.
Proof. intros. apply (proj1 (Z2Qc_inj_lt _ _)). lia. Qed.

Lemma Qc_sub_pos (x y : Qc) : (x < y)%Qc → (0 < y - x)%Qc.
Proof. intros Hxy. by apply Qclt_minus_iff in Hxy. Qed.

(** Between two positive voiced frames the segment is positive. *)
Lemma segment_pos i a j b t :
  (0 < a)%Qc → (0 < b)%Qc → i < t < j → (0 < segment i a j b t)%Qc.
Proof.
  intros Ha Hb [Hit Htj]. unfold segment.
  pose proof (Qc_sub_pos _ _ (Qc_of_nat_lt i t Hit)) as Hu.
  pose proof (Qc_sub_pos _ _ (Qc_of_nat_lt t j Htj)) as Hw.
  pose proof (Qc_sub_pos _ _ (Qc_of_nat_lt i j ltac:(lia))) as Hd.
  set (I := Qc_of_Z (Z.of_nat i)) in *.
  set (J := Qc_of_Z (Z.of_nat j)) in *.
  set (T := Qc_of_Z (Z.of_nat t)) in *.
  assert (J - I ≠ 0)%Qc as Hne.
  { intros Heq. rewrite Heq in Hd. by apply Qclt_not_eq in Hd. }
  replace ((b - a) / (J - I) * (T - I) + a)%Qc
    with ((b * (T - I) + a * (J - T)) * / (J - I))%Qc by (by field).
  apply Qcmult_pos_pos; [|by apply Qcinv_pos].
  apply Qcplus_pos_pos; by apply Qcmult_pos_pos.
Qed.

Lemma Qc_of_nat_sub_ne (i j : nat) :
  i < j → (Qc_of_Z (Z.of_nat j) - Qc_of_Z (Z.of_nat i))%Qc ≠ 0%Qc.
Proof.
  intros Hij Heq. pose proof (Qc_sub_pos _ _ (Qc_of_nat_lt i j Hij)) as Hd.
  rewrite Heq in Hd. by apply Qclt_not_eq in Hd.
Qed.

Lemma segment_left i a j b : segment i a j b i = a.
Proof. unfold segment. ring. Qed.

Lemma segment_right i a j b : i < j → segment i a j b j = b.
Proof.
  intros Hij. unfold segment. pose proof (Qc_of_nat_sub_ne i j Hij).
  by field.
Qed.

(** A segment between two points of a segment is part of it. *)
Lemma segment_collinear i a j b p q t :
  i < j → p < q →
  segment p (segment i a j b p) q (segment i a j b q) t = segment i a j b t.
Proof.
  intros Hij Hpq. unfold segment.
  pose proof (Qc_of_nat_sub_ne i j Hij). pose proof (Qc_of_nat_sub_ne p q Hpq).
  by field.
Qed.

(** *** The padded contour *)

Lemma first_voiced_value a s (tl : list Qc) :
  s ≠ 0%Qc →
  index (filter (λ v, v ≠ 0%Qc) (replicate a 0%Qc ++ s :: tl)) 0 = Ok s.
Proof.
  intros Hs. rewrite filter_app, filter_zeros, filter_cons_True by done.
  done.
Qed.

Lemma first_voiced_position a s (tl : list Qc) :
  s ≠ 0%Qc →
  index (np_where (λ v, v = s) (replicate a 0%Qc ++ s :: tl)) 0 = Ok a.
Proof.
  intros Hs. unfold np_where. rewrite where_from_app, where_from_none.
  - cbn [where_from app]. rewrite decide_True by done.
    by rewrite length_replicate.
  - apply Forall_replicate. congruence.
Qed.

Lemma last_voiced_value (ini : list Qc) e b :
  e ≠ 0%Qc →
  index_last (filter (λ v, v ≠ 0%Qc) (ini ++ e :: replicate b 0%Qc)) = Ok e.
Proof.
  intros He. rewrite filter_app, filter_cons_True, filter_zeros by done.
  unfold index_last. by rewrite last_snoc.
Qed.

Lemma last_voiced_position (ini : list Qc) e b :
  e ≠ 0%Qc →
  index_last (np_where (λ v, v = e) (ini ++ e :: replicate b 0%Qc))
  = Ok (length ini).
Proof.
  intros He. unfold np_where. rewrite where_from_app. cbn [where_from].
  rewrite decide_True by done.
  rewrite (where_from_none _ _ (replicate b 0%Qc)).
  - unfold index_last. by rewrite last_snoc.
  - apply Forall_replicate. congruence.
Qed.

Lemma fill_to_length {A} stop (v : A) l : length (fill_to stop v l) = length l.
Proof. unfold fill_to. rewrite length_app, length_replicate, length_drop. lia. Qed.

Lemma fill_from_length {A} start (v : A) l :
  length (fill_from start v l) = length l.
Proof.
  unfold fill_from. rewrite length_app, length_replicate, length_take. lia.
Qed.

Lemma fill_to_lookup {A} stop (v : A) l t :
  t < length l →
  fill_to stop v l !! t = if decide (t < stop) then Some v else l !! t.
Proof.
  intros Ht. unfold fill_to. case_decide.
  - rewrite lookup_app_l by (rewrite length_replicate; lia).
    apply lookup_replicate_2. lia.
  - rewrite lookup_app_r by (rewrite length_replicate; lia).
    rewrite length_replicate, lookup_drop. f_equal. lia.
Qed.

Lemma fill_from_lookup {A} start (v : A) l t :
  t < length l →
  fill_from start v l !! t = if decide (t < start) then l !! t else Some v.
Proof.
  intros Ht. unfold fill_from. case_decide.
  - rewrite lookup_app_l by (rewrite length_take; lia).
    by apply lookup_take_lt.
  - rewrite lookup_app_r by (rewrite length_take; lia).
    apply lookup_replicate_2. rewrite length_take. lia.
Qed.

(** A frame of a contour that starts and ends voiced is voiced or lies in
    an unvoiced gap between two voiced frames. *)
Lemma voiced_or_gap (g : list Qc) t v0 v1 :
  t < length g → voiced_at g 0 v0 → voiced_at g (length g - 1) v1 →
  (∃ v, voiced_at g t v) ∨
  (∃ p a q b, voiced_at g p a ∧ voiced_at g q b ∧ p < t < q ∧
              unvoiced_between g p q).
Proof.
  unfold voiced_at, unvoiced_between. intros Ht [H0 Hv0] [H1 Hv1].
  destruct (lookup_lt_is_Some_2 g t Ht) as [v Hv].
  destruct (decide (v = 0%Qc)) as [->|Hne]; [right|left; by exists v].
  destruct (split_last_voiced (take t g)) as [Hz|(ini & a & k & Hini & Ha)].
  { destruct t as [|t]; [congruence|].
    apply (Forall_lookup_1 _ _ 0 v0) in Hz; [done|].
    by rewrite lookup_take_lt by lia. }
  destruct (split_first_voiced (drop t g)) as [Hz|(k' & b & tl & Htl & Hb)].
  { apply (Forall_lookup_1 _ _ (length g - 1 - t) v1) in Hz; [done|].
    rewrite lookup_drop, <-H1. f_equal. lia. }
  assert (length (take t g) = t) as Hlen by (rewrite length_take; lia).
  rewrite Hini, length_app in Hlen. cbn [length] in Hlen.
  rewrite length_replicate in Hlen.
  assert (∀ m, m < t → g !! m = (ini ++ a :: replicate k 0%Qc) !! m) as Hleft.
  { intros m Hm. by rewrite <-Hini, lookup_take_lt. }
  assert (∀ m, g !! (t + m) = (replicate k' 0%Qc ++ b :: tl) !! m) as Hright.
  { intros m. by rewrite <-Htl, lookup_drop. }
  exists (length ini), a, (t + k'), b. split_and!.
  - rewrite Hleft by lia. by rewrite list_lookup_middle.
  - done.
  - rewrite Hright. by rewrite list_lookup_middle by (by rewrite length_replicate).
  - done.
  - lia.
  - destruct k' as [|k']; [|lia].
    specialize (Hright 0). rewrite Nat.add_0_r, Hv in Hright.
    cbn in Hright. congruence.
  - intros m [Hm1 Hm2]. destruct (decide (m < t)) as [Hmt|Hmt].
    + rewrite Hleft by done.
      rewrite lookup_app_r by lia.
      replace (m - length ini) with (S (m - length ini - 1)) by lia.
      cbn. apply lookup_replicate_2. lia.
    + replace m with (t + (m - t)) by lia. rewrite Hright.
      rewrite lookup_app_l by (rewrite length_replicate; lia).
      apply lookup_replicate_2. lia.
Qed.

(** Running a total function over [range(i, i + n)]. *)
Lemma mapM_seq_Ok {B} (f : nat → result B) (g : nat → B) i n :
  (∀ t, i ≤ t < i + n → f t = Ok (g t)) →
  mapM f (seq i n) = Ok (g <$> seq i n).
Proof.
  revert i. induction n as [|n IH]; intros i Hf; [done|].
  cbn [seq]. rewrite mapM_cons, Hf by lia. cbn.
  rewrite IH by (intros; apply Hf; lia). done.
Qed.

Lemma padded_fill (f0 : list Qc) a s tl ini e b :
  f0 = replicate a 0%Qc ++ s :: tl → s ≠ 0%Qc →
  f0 = ini ++ e :: replicate b 0%Qc → e ≠ 0%Qc →
  padded f0 (fill_from (length ini) e (fill_to a s f0)).
Proof.
  intros Hfirst Hs Hlast He.
  assert (f0 !! a = Some s) as Ha.
  { rewrite Hfirst. by rewrite list_lookup_middle by (by rewrite length_replicate). }
  assert (∀ m, m < a → f0 !! m = Some 0%Qc) as Hbefore.
  { intros m Hm. rewrite Hfirst.
    rewrite lookup_app_l by (rewrite length_replicate; lia).
    by apply lookup_replicate_2. }
  assert (f0 !! length ini = Some e) as Hz.
  { rewrite Hlast. by rewrite list_lookup_middle. }
  assert (length f0 = length ini + S b) as Hlen.
  { rewrite Hlast, length_app. cbn. by rewrite length_replicate. }
  assert (∀ m, length ini < m < length f0 → f0 !! m = Some 0%Qc) as Hafter.
  { intros m Hm. rewrite Hlast. rewrite lookup_app_r by lia.
    replace (m - length ini) with (S (m - length ini - 1)) by lia.
    cbn. apply lookup_replicate_2. lia. }
  assert (a ≤ length ini) as Haz.
  { destruct (decide (a ≤ length ini)) as [|Hgt]; [done|].
    pose proof (lookup_lt_Some _ _ _ Ha).
    rewrite Hafter in Ha by lia. congruence. }
  split; [by rewrite fill_from_length, fill_to_length|].
  exists a, s, (length ini), e. unfold voiced_at. split_and!; try done.
  - intros t Ht.
    rewrite fill_from_lookup by (rewrite fill_to_length; lia).
    rewrite decide_True by lia. rewrite fill_to_lookup by lia.
    by rewrite decide_True.
  - intros t [Ht1 Ht2].
    rewrite fill_from_lookup by (rewrite fill_to_length; lia).
    case_decide.
    + rewrite fill_to_lookup by lia. by rewrite decide_False by lia.
    + replace t with (length ini) by lia. done.
  - intros t [Ht1 Ht2].
    rewrite fill_from_lookup by (rewrite fill_to_length; lia).
    by rewrite decide_False by lia.
Qed.

Lemma padded_voiced f0 g t v : padded f0 g → voiced_at f0 t v → voiced_at g t v.
Proof.
  intros (Hlen & a & s & z & e & _ & Hbefore & _ & Hafter & _ & Hkeep & _).
  intros [Ht Hv]. split; [|done].
  pose proof (lookup_lt_Some _ _ _ Ht).
  rewrite Hkeep; [done|]. split.
  - destruct (decide (a ≤ t)); [done|]. rewrite Hbefore in Ht by lia. congruence.
  - destruct (decide (t ≤ z)); [done|]. rewrite Hafter in Ht by lia. congruence.
Qed.

Lemma padded_span f0 g :
  padded f0 g →
  length g = length f0 ∧
  ∃ a s z e,
    a ≤ z < length f0 ∧
    voiced_at f0 a s ∧ (∀ m, m < a → f0 !! m = Some 0%Qc) ∧
    voiced_at f0 z e ∧ (∀ m, z < m < length f0 → f0 !! m = Some 0%Qc) ∧
    (∀ t, t < a → g !! t = Some s) ∧
    (∀ t, a ≤ t ≤ z → g !! t = f0 !! t) ∧
    (∀ t, z ≤ t < length f0 → g !! t = Some e).
Proof.
  intros (Hlen & a & s & z & e & [Ha Hs] & Hbefore & [Hz He] & Hafter & Hrest).
  split; [done|]. exists a, s, z, e.
  pose proof (lookup_lt_Some _ _ _ Ha). pose proof (lookup_lt_Some _ _ _ Hz).
  destruct Hrest as (? & ? & ?).
  assert (a ≤ z).
  { destruct (decide (a ≤ z)); [done|]. rewrite Hafter in Ha by lia. congruence. }
  split_and!; done.
Qed.

Lemma padded_ends f0 g :
  padded f0 g → ∃ s e, voiced_at g 0 s ∧ voiced_at g (length g - 1) e.
Proof.
  intros (Hlen & a & s & z & e & Haz & [Ha Hs] & _ & [Hz He] & _
          & Hlead & Hkeep & Htrail)%padded_span.
  exists s, e. split; split; try done.
  - destruct a as [|a]; [by rewrite Hkeep by lia|]. apply Hlead. lia.
  - rewrite Hlen. apply Htrail. lia.
Qed.

(** The frames of a padded F0 contour are zero or positive. *)
Lemma padded_contour f0 g : padded f0 g → f0_contour f0 → f0_contour g.
Proof.
  intros (Hlen & a & s & z & e & Haz & [Ha Hs] & _ & [Hz He] & _
          & Hlead & Hkeep & Htrail)%padded_span Hf0.
  apply Forall_lookup. intros t v Ht.
  pose proof (lookup_lt_Some _ _ _ Ht) as Hlt. rewrite Hlen in Hlt.
  destruct (decide (t < a)).
  { rewrite Hlead in Ht by done. injection Ht as <-.
    by apply (Forall_lookup_1 _ _ _ _ Hf0 Ha). }
  destruct (decide (t ≤ z)).
  { rewrite Hkeep in Ht by lia. by apply (Forall_lookup_1 _ _ _ _ Hf0 Ht). }
  rewrite Htrail in Ht by lia. injection Ht as <-.
  by apply (Forall_lookup_1 _ _ _ _ Hf0 Hz).
Qed.

(** *** The conversion as an interpolation of the padded contour *)

Lemma bind_Ok {A B} (f : A → result B) a : (Ok a ≫= f) = f a.
Proof. done. Qed.

Lemma convert_padded (f0 : list Qc) :
  ¬ Forall (λ v, v = 0%Qc) f0 →
  ∃ g, padded f0 g ∧
       _convert_to_continuous_f0 f0
       = mapM (λ t, match np_interp t (control_points 0 g) with
                    | Some v => Ok v
                    | None => Raise ValueError
                    end) (seq 0 (length g)).
Proof.
  intros Hnz.
  destruct (split_first_voiced f0) as [?|(a & s & tl & Hfirst & Hs)]; [done|].
  destruct (split_last_voiced f0) as [?|(ini & e & b & Hlast & He)]; [done|].
  pose proof (padded_fill f0 a s tl ini e b Hfirst Hs Hlast He) as Hpad.
  exists (fill_from (length ini) e (fill_to a s f0)). split; [done|].
  assert (index (filter (λ v, v ≠ 0%Qc) f0) 0 = Ok s) as Hstart_f0.
  { rewrite Hfirst. by apply first_voiced_value. }
  assert (index_last (filter (λ v, v ≠ 0%Qc) f0) = Ok e) as Hend_f0.
  { rewrite Hlast. by apply last_voiced_value. }
  assert (index (np_where (λ v, v = s) f0) 0 = Ok a) as Hstart_idx.
  { rewrite Hfirst. by apply first_voiced_position. }
  assert (index_last (np_where (λ v, v = e) f0) = Ok (length ini)) as Hend_idx.
  { rewrite Hlast. by apply last_voiced_position. }
  unfold _convert_to_continuous_f0. rewrite decide_False by done.
  rewrite Hstart_f0, bind_Ok, Hend_f0, bind_Ok.
  rewrite Hstart_idx, bind_Ok, Hend_idx, bind_Ok.
  cbv zeta. set (g := fill_from (length ini) e (fill_to a s f0)) in *.
  rewrite take_at_np_where, bind_Ok. unfold interp1d, np_where.
  rewrite where_from_length, decide_False by (by intros []).
  rewrite decide_False.
  - by rewrite bind_Ok, zip_where_filter.
  - destruct (padded_ends f0 g Hpad) as (s' & _ & [H0 Hs'] & _).
    destruct g as [|v g']; [done|]. injection H0 as ->.
    by rewrite filter_cons_True.
Qed.

(** The conversion of a contour with a voiced frame succeeds and its result
    is described frame by frame. *)
Lemma convert_voiced (f0 : list Qc) :
  ¬ Forall (λ v, v = 0%Qc) f0 →
  ∃ out,
    _convert_to_continuous_f0 f0 = Ok out ∧
    length out = length f0 ∧
    (∀ t v, voiced_at f0 t v → out !! t = Some v) ∧
    (∀ i s t, voiced_at f0 i s → (∀ m, m < i → f0 !! m = Some 0%Qc) →
              t < i → out !! t = Some s) ∧
    (∀ j e t, voiced_at f0 j e →
              (∀ m, j < m < length f0 → f0 !! m = Some 0%Qc) →
              j < t < length f0 → out !! t = Some e) ∧
    (∀ i a j b t, voiced_at f0 i a → voiced_at f0 j b → i < t < j →
                  unvoiced_between f0 i j →
                  out !! t = Some (segment i a j b t)) ∧
    (∀ t, out !! t = Some 0%Qc →
          ∃ i a j b, voiced_at out i a ∧ voiced_at out j b ∧ i < t < j ∧
                     ∀ m, i ≤ m ≤ j → out !! m = Some (segment i a j b m)) ∧
    (f0_contour f0 → Forall (λ v, v ≠ 0%Qc) out).
Proof.
  intros Hnz. destruct (convert_padded f0 Hnz) as (g & Hpad & ->).
  destruct (padded_ends f0 g Hpad) as (s0 & e0 & Hg0 & Hg1).
  pose proof (padded_span f0 g Hpad) as
    (Hlen & a & s & z & e & Haz & [Ha Hs] & Hbefore & [Hz He] & Hafter
     & Hlead & Hkeep & Htrail).
  set (value t := default 0%Qc (np_interp t (control_points 0 g))).
  assert (∀ t v, voiced_at g t v →
            np_interp t (control_points 0 g) = Some v) as Hvoiced.
  { intros t v [Ht Hv]. by apply (np_interp_voiced 0 g t v). }
  assert (∀ i a j b t, voiced_at g i a → voiced_at g j b → i < t < j →
            unvoiced_between g i j →
            np_interp t (control_points 0 g) = Some (segment i a j b t))
    as Hgap.
  { intros i a' j b' t [Hi Ha'] [Hj Hb'] Ht Hun.
    by apply (np_interp_gap 0 g i a' j b' t). }
  assert (∀ t, t < length g → ∃ v, np_interp t (control_points 0 g) = Some v)
    as Htotal.
  { intros t Ht.
    destruct (voiced_or_gap g t s0 e0 Ht Hg0 Hg1)
      as [[v Hv]|(p & a' & q & b' & Hp & Hq & Hpq & Hun)]; eauto. }
  exists (value <$> seq 0 (length g)).
  assert (∀ t v, t < length g → np_interp t (control_points 0 g) = Some v →
            (value <$> seq 0 (length g)) !! t = Some v) as Hout.
  { intros t v Ht Hv. rewrite list_lookup_fmap, lookup_seq_lt by done.
    unfold value. cbn. by rewrite Hv. }
  split_and!.
  - apply mapM_seq_Ok. intros t Ht. unfold value.
    destruct (Htotal t) as [v ->]; [lia|done].
  - by rewrite length_fmap, length_seq.
  - intros t v Hv. apply (padded_voiced f0 g t v Hpad) in Hv.
    apply Hout; [|by apply Hvoiced].
    destruct Hv as [Hv _]. by apply lookup_lt_Some in Hv.
  - intros i s' t [Hi Hs'] Hzero Hti.
    assert (i = a) as ->.
    { destruct (Nat.lt_trichotomy i a) as [Hlt|[->|Hgt]]; [|done|].
      - rewrite Hbefore in Hi by done. congruence.
      - rewrite Hzero in Ha by done. congruence. }
    assert (s' = s) as -> by congruence.
    apply Hout; [lia|]. apply Hvoiced. split; [by apply Hlead|done].
  - intros j e' t [Hj He'] Hzero Hjt.
    assert (j = z) as ->.
    { destruct (Nat.lt_trichotomy j z) as [Hlt|[->|Hgt]]; [|done|].
      - rewrite Hzero in Hz by lia. congruence.
      - pose proof (lookup_lt_Some _ _ _ Hj).
        rewrite Hafter in Hj by lia. congruence. }
    assert (e' = e) as -> by congruence.
    apply Hout; [lia|]. apply Hvoiced. split; [apply Htrail; lia|done].
  - intros i a' j b' t Hi Hj Hij Hun.
    pose proof (padded_voiced f0 g i a' Hpad Hi) as Hgi.
    pose proof (padded_voiced f0 g j b' Hpad Hj) as Hgj.
    destruct Hi as [Hi Ha'], Hj as [Hj Hb'].
    pose proof (lookup_lt_Some _ _ _ Hj).
    assert (a ≤ i).
    { destruct (decide (a ≤ i)); [done|]. rewrite Hbefore in Hi by lia. congruence. }
    assert (j ≤ z).
    { destruct (decide (j ≤ z)); [done|]. rewrite Hafter in Hj by lia. congruence. }
    apply Hout; [lia|]. apply (Hgap i a' j b' t); try done.
    intros m Hm. rewrite Hkeep by lia. by apply Hun.
  - intros t Ht. pose proof (lookup_lt_Some _ _ _ Ht) as Hlt.
    rewrite length_fmap, length_seq in Hlt.
    destruct (voiced_or_gap g t s0 e0 Hlt Hg0 Hg1)
      as [[w Hw]|(p & a' & q & b' & Hp & Hq & Hpq & Hun)].
    { rewrite (Hout t w Hlt (Hvoiced t w Hw)) in Ht. injection Ht as ->.
      by destruct Hw as [_ []]. }
    pose proof (lookup_lt_Some _ _ _ (proj1 Hq)) as Hqlt.
    exists p, a', q, b'. unfold voiced_at. split_and!.
    + apply Hout; [lia|by apply Hvoiced].
    + by destruct Hp.
    + apply Hout; [lia|by apply Hvoiced].
    + by destruct Hq.
    + lia.
    + lia.
    + intros m Hm. apply Hout; [lia|].
      destruct (decide (m = p)) as [->|]; [|destruct (decide (m = q)) as [->|]].
      * rewrite segment_left. by apply Hvoiced.
      * rewrite segment_right by lia. by apply Hvoiced.
      * apply Hgap; [done|done|lia|done].
  - intros Hf0. pose proof (padded_contour f0 g Hpad Hf0) as Hg.
    assert (∀ t v, voiced_at g t v → (0 < v)%Qc) as Hpos.
    { intros t v [Ht Hv].
      destruct (Qcle_lt_or_eq _ _ (Forall_lookup_1 _ _ _ _ Hg Ht)); [done|].
      by destruct Hv. }
    apply Forall_lookup. intros t v Ht.
    pose proof (lookup_lt_Some _ _ _ Ht) as Hlt.
    rewrite length_fmap, length_seq in Hlt.
    destruct (voiced_or_gap g t s0 e0 Hlt Hg0 Hg1)
      as [[w Hw]|(p & a' & q & b' & Hp & Hq & Hpq & Hun)].
    + rewrite (Hout t w Hlt (Hvoiced t w Hw)) in Ht. injection Ht as <-.
      by destruct Hw.
    + rewrite (Hout t _ Hlt (Hgap p a' q b' t Hp Hq Hpq Hun)) in Ht.
      injection Ht as <-. intros Heq.
      pose proof (segment_pos p a' q b' t (Hpos p a' Hp) (Hpos q b' Hq) Hpq)
        as Hseg.
      rewrite Heq in Hseg. by apply Qclt_not_eq in Hseg.
Qed.

(** A segment that leaves a non-zero value crosses zero at most once. *)
Lemma segment_zero_unique i a j b t m :
  a ≠ 0%Qc → segment i a j b t = 0%Qc → segment i a j b m = 0%Qc → m = t.
Proof.
  unfold segment. intros Ha Ht Hm.
  set (slope := ((b - a) / (Qc_of_Z (Z.of_nat j) - Qc_of_Z (Z.of_nat i)))%Qc) in *.
  set (I := Qc_of_Z (Z.of_nat i)) in *.
  set (T := Qc_of_Z (Z.of_nat t)) in *.
  set (M := Qc_of_Z (Z.of_nat m)) in *.
  assert (slope * (M - T) = 0)%Qc as Hprod.
  { replace (slope * (M - T))%Qc
      with ((slope * (M - I) + a) - (slope * (T - I) + a))%Qc by ring.
    rewrite Ht, Hm. ring. }
  apply Qcmult_integral in Hprod as [Hslope|Hdiff].
  - rewrite Hslope in Ht. destruct Ha. rewrite <-Ht. ring.
  - assert (M = T) as Heq.
    { replace M with ((M - T) + T)%Qc by ring. rewrite Hdiff. ring. }
    apply Z2Qc_inj in Heq. lia.
Qed.

Lemma Exists_voiced (f0 : list Qc) :
  Exists (λ v, v ≠ 0%Qc) f0 ↔ ¬ Forall (λ v, v = 0%Qc) f0.
Proof.
  split.
  - intros Hex Hall. apply Exists_exists in Hex as (v & Hin & Hv).
    by apply (proj1 (Forall_forall _ _) Hall) in Hin.
  - intros Hnot. apply not_Forall_Exists in Hnot; [|apply _].
    eapply Exists_impl; [exact Hnot|]. by intros v Hv.
Qed.

(** C3: the conversion raises exactly when every frame is zero,
    and then it is the assertion error.  On a contour with a voiced frame
    it returns a contour of the same length in which voiced frames are
    kept, the frames before the first voiced frame take its value, the
    frames after the last voiced frame take its value, and an unvoiced
    frame between two voiced frames lies on the segment between them; when
    no frame of the input is negative the result has no zero frame. *)
Theorem continuous_f0_spec (f0 : list Qc) :
  (raises (_convert_to_continuous_f0 f0) ↔ Forall (λ v, v = 0%Qc) f0) ∧
  (Forall (λ v, v = 0%Qc) f0 →
     _convert_to_continuous_f0 f0 = Raise AssertionError) ∧
  (Exists (λ v, v ≠ 0%Qc) f0 →
   ∃ out,
     _convert_to_continuous_f0 f0 = Ok out ∧
     length out = length f0 ∧
     (∀ t v, voiced_at f0 t v → out !! t = Some v) ∧
     (∀ i s t, voiced_at f0 i s → (∀ m, m < i → f0 !! m = Some 0%Qc) →
               t < i → out !! t = Some s) ∧
     (∀ j e t, voiced_at f0 j e →
               (∀ m, j < m < length f0 → f0 !! m = Some 0%Qc) →
               j < t < length f0 → out !! t = Some e) ∧
     (∀ i a j b t, voiced_at f0 i a → voiced_at f0 j b → i < t < j →
                   unvoiced_between f0 i j →
                   out !! t = Some (segment i a j b t)) ∧
     (f0_contour f0 → Forall (λ v, v ≠ 0%Qc) out)).
Proof.
  assert (Forall (λ v, v = 0%Qc) f0 →
          _convert_to_continuous_f0 f0 = Raise AssertionError) as Hzero.
  { intros Hall. unfold _convert_to_continuous_f0. by rewrite decide_True. }
  split_and!; [split| |].
  - intros [e He]. destruct (decide (Forall (λ v, v = 0%Qc) f0)) as [|Hnz]; [done|].
    destruct (convert_voiced f0 Hnz) as (out & Hout & _). congruence.
  - intros Hall. exists AssertionError. by apply Hzero.
  - done.
  - intros Hex%Exists_voiced.
    destruct (convert_voiced f0 Hex)
      as (out & Hout & Hlen & Hv & Hlead & Htrail & Hgap & _ & Hnz).
    exists out. by split_and!.
Qed.

Lemma continuous_f0_spec_witness :
  _convert_to_continuous_f0 [0%Qc; 0%Qc] = Raise AssertionError ∧
  ∃ out,
    _convert_to_continuous_f0
      [0%Qc; Qc_of_Z 100; 0%Qc; 0%Qc; 0%Qc; Qc_of_Z 200; 0%Qc] = Ok out ∧
    out !! 0 = Some (Qc_of_Z 100) ∧
    out !! 3 = Some (segment 1 (Qc_of_Z 100) 5 (Qc_of_Z 200) 3) ∧
    out !! 6 = Some (Qc_of_Z 200) ∧
    Forall (λ v, v ≠ 0%Qc) out.
Proof.
  split.
  { apply (continuous_f0_spec [0%Qc; 0%Qc]). by_compute. }
  destruct (continuous_f0_spec
              [0%Qc; Qc_of_Z 100; 0%Qc; 0%Qc; 0%Qc; Qc_of_Z 200; 0%Qc])
    as (_ & _ & Hvoiced).
  destruct Hvoiced as (out & Hout & _ & _ & Hlead & Htrail & Hgap & Hnz).
  - by_compute.
  - exists out. split_and!.
    + exact Hout.
    + apply (Hlead 1 (Qc_of_Z 100) 0); [by_compute| |lia].
      intros m Hm. by replace m with 0 by lia.
    + apply (Hgap 1 (Qc_of_Z 100) 5 (Qc_of_Z 200) 3); [by_compute..|lia|].
      intros m Hm.
      assert (m = 2 ∨ m = 3 ∨ m = 4) as [->|[->| ->]] by lia; reflexivity.
    + apply (Htrail 5 (Qc_of_Z 200) 6); [by_compute| |cbn; lia].
      intros m Hm. cbn in Hm. by replace m with 6 by lia.
    + apply Hnz. by_compute.
Defined.

(** C4: on every contour with a voiced frame the conversion succeeds, and
    converting its result again returns that same result. *)
Theorem continuous_f0_idempotent (f0 : list Qc) :
  Exists (λ v, v ≠ 0%Qc) f0 →
  ∃ out,
    _convert_to_continuous_f0 f0 = Ok out ∧
    _convert_to_continuous_f0 out = Ok out.
Proof.
  intros Hex. pose proof (proj1 (Exists_voiced f0) Hex) as Hnz.
  destruct (convert_voiced f0 Hnz)
    as (out & Hout & Hlen & Hkeep & _ & _ & _ & Hlinear & _).
  exists out. split; [done|].
  assert (¬ Forall (λ v, v = 0%Qc) out) as Hnz'.
  { apply Exists_exists in Hex as (v & [t Ht]%list_elem_of_lookup & Hv).
    intros Hall. apply (Forall_lookup_1 _ _ t v) in Hall; [done|].
    by apply Hkeep. }
  destruct (convert_voiced out Hnz')
    as (out' & -> & Hlen' & Hkeep' & _ & _ & Hgap' & _).
  f_equal. apply (list_eq_same_length out' out (length out) eq_refl Hlen').
  intros t x y Ht Hx Hy.
  destruct (decide (y = 0%Qc)) as [->|Hy0].
  - destruct (Hlinear t Hy) as (i & a & j & b & [Hi Ha] & [Hj Hb] & Hij & Hlin).
    assert (∀ m, i ≤ m ≤ j → m ≠ t →
              voiced_at out m (segment i a j b m)) as Hknots.
    { intros m Hm Hmt. split; [by apply Hlin|]. intros Hm0.
      assert (segment i a j b t = 0%Qc) as Ht0.
      { rewrite Hlin in Hy by lia. congruence. }
      by apply Hmt, (segment_zero_unique i a j b t m). }
    rewrite (Hgap' (t - 1) (segment i a j b (t - 1))
                   (t + 1) (segment i a j b (t + 1)) t) in Hx.
    + rewrite segment_collinear in Hx by lia.
      rewrite Hlin in Hy by lia. congruence.
    + apply Hknots; lia.
    + apply Hknots; lia.
    + lia.
    + intros m Hm. by replace m with t by lia.
  - rewrite (Hkeep' t y) in Hx by done. congruence.
Qed.

Lemma continuous_f0_idempotent_witness :
  ∃ out,
    _convert_to_continuous_f0
      [0%Qc; Qc_of_Z 100; 0%Qc; 0%Qc; Qc_of_Z 220; 0%Qc] = Ok out ∧
    _convert_to_continuous_f0 out = Ok out.
Proof.
  apply (continuous_f0_idempotent
           [0%Qc; Qc_of_Z 100; 0%Qc; 0%Qc; Qc_of_Z 220; 0%Qc]).
  by_compute.
Defined.

(** ** The extraction call on a batch *)

Lemma convert_length (f0 out : list Qc) :
  _convert_to_continuous_f0 f0 = Ok out → length out = length f0.
Proof.
  intros Hout. destruct (decide (Forall (λ v, v = 0%Qc) f0)) as [Hall|Hnz].
  - unfold _convert_to_continuous_f0 in Hout. by rewrite decide_True in Hout.
  - destruct (convert_voiced f0 Hnz) as (out' & Hout' & Hlen & _). congruence.
Qed.

Lemma log_nonzero_length np_log (f0 out : list Qc) :
  log_nonzero np_log f0 = Ok out → length out = length f0.
Proof.
  rewrite log_nonzero_map. intros [= <-]. by rewrite length_fmap.
Qed.

(** Every contour that [_calculate_f0] returns has the expected number of
    frames of the waveform it was given. *)
Lemma calculate_f0_len dio stonemask np_log self (x p : list Qc) :
  (0 ≤ num_frames self x)%Z →
  _calculate_f0 dio stonemask np_log self x = Ok p →
  len p = num_frames self x.
Proof.
  intros Hpos. unfold _calculate_f0.
  destruct (dio x _ _ _ _) as [f0 timeaxis].
  rewrite <-(adjust_num_frames_len self x (stonemask x f0 timeaxis (fs self)))
    by done.
  set (adjusted := _adjust_num_frames _ _ _).
  intros Hp.
  assert (∃ f1, (if use_continuous_f0 self
                 then _convert_to_continuous_f0 adjusted else Ok adjusted)
                = Ok f1 ∧ length f1 = length adjusted ∧
                (if use_log_f0 self then log_nonzero np_log f1 else Ok f1) = Ok p)
    as (f1 & Hf1 & Hlen1 & Hlog).
  { destruct (if use_continuous_f0 self then _ else _) as [f1|e] eqn:Hf1;
      [|discriminate].
    exists f1. split_and!; [done| |].
    - destruct (use_continuous_f0 self); [by apply convert_length|congruence].
    - rewrite bind_Ok in Hp.
      by destruct (if use_log_f0 self then _ else _); [rewrite bind_Ok in Hp|]. }
  unfold len. rewrite <-Hlen1. f_equal.
  destruct (use_log_f0 self); [by apply (log_nonzero_length np_log)|congruence].
Qed.

Lemma mapM_Ok_Forall2 {A B} (f : A → result B) l ks :
  mapM f l = Ok ks → Forall2 (λ a b, f a = Ok b) l ks.
Proof.
  revert ks. induction l as [|a l IH]; intros ks.
  - intros [= <-]. constructor.
  - rewrite mapM_cons. destruct (f a) as [b|] eqn:Hb; [|discriminate].
    rewrite bind_Ok. destruct (mapM f l) as [k|]; [|discriminate].
    rewrite bind_Ok. intros [= <-]. constructor; [done|by apply IH].
Qed.

Lemma num_frames_length self (x y : list Qc) :
  length x = length y → num_frames self x = num_frames self y.
Proof. unfold num_frames, len. by intros ->. Qed.

Lemma pad_list_same_length (xs : list (list Qc)) n pad_value :
  Forall (λ x, length x = n) xs → pad_list xs pad_value = xs.
Proof.
  intros Hxs. unfold pad_list.
  assert (max_list (length <$> xs) ≤ n) as Hmax.
  { induction Hxs as [|x xs Hx Hxs IH]; cbn; lia. }
  revert Hmax. generalize (max_list (length <$> xs)). intros m Hm.
  induction Hxs as [|x xs Hx Hxs IH]; [done|].
  rewrite fmap_cons, IH. f_equal.
  replace (m - length x) with 0 by lia. apply app_nil_r.
Qed.

(** C7: with token averaging disabled, on a batch tensor of [T] samples
    per row the call never reads [input_lengths]: every returned valid
    length is the frame count of the padded row and every returned
    sequence has that many frames, whatever the true lengths of the
    utterances are. *)
Theorem forward_lengths_of_padded_rows dio stonemask np_log self
    (input : list (list Qc)) input_lengths durations durations_lengths
    T pitch pitch_lengths :
  self.(use_token_averaged_f0) = false →
  Forall (λ row, length row = T) input →
  (0 ≤ num_frames self (silence T))%Z →
  forward dio stonemask np_log self input input_lengths durations
    durations_lengths = Ok (pitch, pitch_lengths) →
  pitch_lengths
    = Some (replicate (length input) (num_frames self (silence T))) ∧
  Forall (λ p, len p = num_frames self (silence T)) pitch.
Proof.
  intros Havg Hrows Hpos. unfold forward.
  destruct (mapM _ input) as [contours|] eqn:Hmap; [|discriminate].
  rewrite bind_Ok, Havg, bind_Ok. intros [= <- <-].
  apply mapM_Ok_Forall2 in Hmap.
  assert (Forall (λ p, len p = num_frames self (silence T)) contours) as Hlens.
  { clear Havg. induction Hmap as [|row p input contours Hp Hmap IH];
      [constructor|].
    apply Forall_cons_1 in Hrows as [Hrow Hrows].
    assert (num_frames self row = num_frames self (silence T)) as Heq.
    { apply num_frames_length. unfold silence. by rewrite length_replicate. }
    constructor; [|by apply IH].
    rewrite <-Heq. eapply calculate_f0_len; [|done]. by rewrite Heq. }
  split.
  - f_equal. rewrite (Forall2_length _ _ _ Hmap).
    clear Hmap. induction Hlens as [|p contours Hp Hlens IH]; [done|].
    cbn. by rewrite Hp, <-IH.
  - rewrite (pad_list_same_length contours
               (Z.to_nat (num_frames self (silence T)))); [done|].
    eapply Forall_impl; [done|]. unfold len. intros p Hp. cbn in Hp. lia.
Qed.

(** Two utterances of 4410 and 2000 samples, batched as rows of 4410
    samples: both are reported with 16 frames, the count of the padded
    row, though 2000 samples make 6 frames. *)
Lemma forward_lengths_of_padded_rows_witness :
  ∃ pitch,
    forward steady_dio keep_stonemask halve plain_config
      [silence 4410; silence 2000 ++ silence 2410] [4410; 2000]%Z None None
    = Ok (pitch, Some [16; 16]%Z) ∧
    num_frames plain_config (silence 2000) = 6%Z.
Proof.
  destruct (forward steady_dio keep_stonemask halve plain_config
              [silence 4410; silence 2000 ++ silence 2410] [4410; 2000]%Z
              None None) as [[pitch lengths]|e] eqn:Hcall.
  - destruct (forward_lengths_of_padded_rows steady_dio keep_stonemask halve
                plain_config [silence 4410; silence 2000 ++ silence 2410]
                [4410; 2000]%Z None None 4410 pitch lengths) as [-> _].
    + reflexivity.
    + by_compute.
    + by_compute.
    + exact Hcall.
    + exists pitch. split; reflexivity.
  - vm_compute in Hcall. discriminate.
Defined.

(** * Further properties of the extractor *)

(** ** The expected frame count and the correction *)

(** X3: for a positive hop length the expected frame count is not
    negative exactly when the waveform has at least
    [n_fft // 2 - hop_length] samples, and a longer waveform never has a
    smaller expected count. *)
Theorem num_frames_nonneg_iff self (x y : list Qc) :
  (0 < self.(hop_length))%Z →
  ((0 ≤ num_frames self x)%Z ↔
   (self.(n_fft) `div` 2 - self.(hop_length) ≤ len x)%Z) ∧
  ((len x ≤ len y)%Z → (num_frames self x ≤ num_frames self y)%Z).
Proof.
  intros Hhop. unfold num_frames, samples_to_frames.
  set (h := hop_length self) in *. set (o := (n_fft self `div` 2)%Z).
  split; [split|].
  - intros Hnum.
    destruct (decide (o - h ≤ len x)%Z) as [|Hshort]; [done|].
    assert ((len x - o) `div` h < -1)%Z; [|lia].
    apply Z.div_lt_upper_bound; lia.
  - intros Hlong.
    assert (-1 ≤ (len x - o) `div` h)%Z; [|lia].
    apply Z.div_le_lower_bound; lia.
  - intros Hxy.
    assert ((len x - o) `div` h ≤ (len y - o) `div` h)%Z; [|lia].
    apply Z.div_le_mono; lia.
Qed.

Lemma num_frames_nonneg_iff_witness :
  (0 ≤ num_frames plain_config (silence 256))%Z ∧
  (num_frames plain_config (silence 256)
   ≤ num_frames plain_config (silence 4410))%Z.
Proof.
  pose proof (num_frames_nonneg_iff plain_config (silence 256) (silence 4410))
    as [Hiff Hmono]; [reflexivity|].
  split.
  - apply Hiff. vm_compute. discriminate.
  - apply Hmono. vm_compute. discriminate.
Defined.

(** X4: when the expected frame count is negative the correction cuts
    that many frames off the end of the contour, whatever its length: a
    contour with no more frames than that becomes empty. *)
Theorem adjust_num_frames_negative self x f0 :
  (num_frames self x < 0)%Z →
  _adjust_num_frames self x f0
    = take (length f0 - Z.to_nat (- num_frames self x)) f0 ∧
  length (_adjust_num_frames self x f0)
    = length f0 - Z.to_nat (- num_frames self x).
Proof.
  intros Hneg. unfold _adjust_num_frames.
  rewrite decide_False by (unfold len; lia).
  rewrite decide_True by (unfold len; lia).
  unfold slice_to. rewrite decide_True by done.
  replace (Z.to_nat (len f0 + num_frames self x))
    with (length f0 - Z.to_nat (- num_frames self x)) by (unfold len; lia).
  split; [done|]. rewrite length_take. lia.
Qed.

Lemma adjust_num_frames_negative_witness :
  _adjust_num_frames plain_config (silence 100)
    [Qc_of_Z 90; Qc_of_Z 95; Qc_of_Z 100]
  = [Qc_of_Z 90; Qc_of_Z 95].
Proof.
  apply (adjust_num_frames_negative plain_config (silence 100)
           [Qc_of_Z 90; Qc_of_Z 95; Qc_of_Z 100]).
  reflexivity.
Defined.

(** X5: for an expected frame count that is not negative the correction
    is idempotent, and it leaves a contour that already has the expected
    number of frames as it is. *)
Theorem adjust_num_frames_idempotent self x f0 :
  (0 ≤ num_frames self x)%Z →
  _adjust_num_frames self x (_adjust_num_frames self x f0)
    = _adjust_num_frames self x f0 ∧
  (len f0 = num_frames self x → _adjust_num_frames self x f0 = f0).
Proof.
  intros Hpos.
  assert (∀ g, len g = num_frames self x → _adjust_num_frames self x g = g)
    as Hfix.
  { intros g Hg. unfold _adjust_num_frames.
    by rewrite !decide_False by lia. }
  split; [|apply Hfix]. apply Hfix. by apply adjust_num_frames_len.
Qed.

Lemma adjust_num_frames_idempotent_witness :
  _adjust_num_frames plain_config (silence 1000)
    (_adjust_num_frames plain_config (silence 1000)
       [Qc_of_Z 90; Qc_of_Z 95; Qc_of_Z 100])
  = _adjust_num_frames plain_config (silence 1000)
      [Qc_of_Z 90; Qc_of_Z 95; Qc_of_Z 100] ∧
  _adjust_num_frames plain_config (silence 1000) [Qc_of_Z 90; Qc_of_Z 95]
  = [Qc_of_Z 90; Qc_of_Z 95].
Proof.
  pose proof (adjust_num_frames_idempotent plain_config (silence 1000)
                [Qc_of_Z 90; Qc_of_Z 95; Qc_of_Z 100]) as [Hidem _];
    [vm_compute; discriminate|].
  pose proof (adjust_num_frames_idempotent plain_config (silence 1000)
                [Qc_of_Z 90; Qc_of_Z 95]) as [_ Hsame];
    [vm_compute; discriminate|].
  split; [exact Hidem|]. apply Hsame. reflexivity.
Defined.

(** ** The shape of a converted contour *)

(** Every frame of a contour with a voiced frame is voiced, or lies
    before the first voiced frame, after the last one, or in an unvoiced
    gap between two voiced frames. *)
Lemma frame_cases (f0 : list Qc) t :
  t < length f0 → ¬ Forall (λ v, v = 0%Qc) f0 →
  (∃ v, voiced_at f0 t v) ∨
  (∃ i s, voiced_at f0 i s ∧ (∀ m, m < i → f0 !! m = Some 0%Qc) ∧ t < i) ∨
  (∃ j e, voiced_at f0 j e ∧
          (∀ m, j < m < length f0 → f0 !! m = Some 0%Qc) ∧ j < t) ∨
  (∃ i a j b, voiced_at f0 i a ∧ voiced_at f0 j b ∧ i < t < j ∧
              unvoiced_between f0 i j).
Proof.
  unfold voiced_at, unvoiced_between. intros Ht Hnz.
  destruct (lookup_lt_is_Some_2 f0 t Ht) as [v Hv].
  destruct (decide (v = 0%Qc)) as [->|Hne]; [right|left; by exists v].
  assert (∀ m, m < t → f0 !! m = take t f0 !! m) as Hleft.
  { intros m Hm. by rewrite lookup_take_lt. }
  assert (∀ m, f0 !! (t + m) = drop t f0 !! m) as Hright.
  { intros m. by rewrite lookup_drop. }
  assert (length (take t f0) = t) as Hlen by (rewrite length_take; lia).
  assert (length (drop t f0) = length f0 - t) as Hlen' by apply length_drop.
  destruct (split_last_voiced (take t f0)) as [Hz|(ini & a & k & Hini & Ha)];
    destruct (split_first_voiced (drop t f0))
      as [Hz'|(k' & b & tl & Htl & Hb)].
  - destruct Hnz. rewrite <-(take_drop t f0). by apply Forall_app.
  - left. rewrite Htl in Hright.
    assert (k' ≠ 0) as Hk'.
    { intros ->. specialize (Hright 0). rewrite Nat.add_0_r, Hv in Hright.
      cbn in Hright. congruence. }
    exists (t + k'), b. split_and!; [|done| |lia].
    + rewrite Hright. by rewrite list_lookup_middle by (by rewrite length_replicate).
    + intros m Hm. destruct (decide (m < t)) as [Hmt|Hmt].
      * rewrite Hleft by done.
        destruct (lookup_lt_is_Some_2 (take t f0) m) as [w Hw]; [lia|].
        rewrite Hw. f_equal. by apply (Forall_lookup_1 _ _ _ _ Hz Hw).
      * replace m with (t + (m - t)) by lia. rewrite Hright.
        rewrite lookup_app_l by (rewrite length_replicate; lia).
        apply lookup_replicate_2. lia.
  - right. left. rewrite Hini in Hleft, Hlen.
    rewrite length_app in Hlen. cbn [length] in Hlen.
    rewrite length_replicate in Hlen.
    exists (length ini), a. split_and!; [|done| |lia].
    + rewrite Hleft by lia. by rewrite list_lookup_middle.
    + intros m [Hm1 Hm2]. destruct (decide (m < t)) as [Hmt|Hmt].
      * rewrite Hleft by done. rewrite lookup_app_r by lia.
        replace (m - length ini) with (S (m - length ini - 1)) by lia.
        cbn. apply lookup_replicate_2. lia.
      * replace m with (t + (m - t)) by lia. rewrite Hright.
        destruct (lookup_lt_is_Some_2 (drop t f0) (m - t)) as [w Hw]; [lia|].
        rewrite Hw. f_equal. by apply (Forall_lookup_1 _ _ _ _ Hz' Hw).
  - right. right. rewrite Hini in Hleft, Hlen. rewrite Htl in Hright.
    rewrite length_app in Hlen. cbn [length] in Hlen.
    rewrite length_replicate in Hlen.
    assert (k' ≠ 0) as Hk'.
    { intros ->. specialize (Hright 0). rewrite Nat.add_0_r, Hv in Hright.
      cbn in Hright. congruence. }
    exists (length ini), a, (t + k'), b. split_and!; [|done| |done|lia|lia|].
    + rewrite Hleft by lia. by rewrite list_lookup_middle.
    + rewrite Hright. by rewrite list_lookup_middle by (by rewrite length_replicate).
    + intros m [Hm1 Hm2]. destruct (decide (m < t)) as [Hmt|Hmt].
      * rewrite Hleft by done. rewrite lookup_app_r by lia.
        replace (m - length ini) with (S (m - length ini - 1)) by lia.
        cbn. apply lookup_replicate_2. lia.
      * replace m with (t + (m - t)) by lia. rewrite Hright.
        rewrite lookup_app_l by (rewrite length_replicate; lia).
        apply lookup_replicate_2. lia.
Qed.

(** X6: a contour without a zero frame is returned as it is. *)
Theorem convert_fully_voiced (f0 : list Qc) :
  f0 ≠ [] → Forall (λ v, v ≠ 0%Qc) f0 →
  _convert_to_continuous_f0 f0 = Ok f0.
Proof.
  intros Hne Hall.
  assert (¬ Forall (λ v, v = 0%Qc) f0) as Hnz.
  { destruct f0 as [|v f0]; [done|]. intros Hz.
    apply Forall_cons_1 in Hall as [Hv _]. by apply Forall_cons_1 in Hz as [? _]. }
  destruct (convert_voiced f0 Hnz) as (out & -> & Hlen & Hkeep & _).
  f_equal. apply (list_eq_same_length out f0 (length f0) eq_refl Hlen).
  intros t x y Ht Hx Hy. rewrite (Hkeep t y) in Hx; [congruence|].
  split; [done|]. by apply (Forall_lookup_1 _ _ _ _ Hall Hy).
Qed.

Lemma convert_fully_voiced_witness :
  _convert_to_continuous_f0 [Qc_of_Z 100; Qc_of_Z (-3); Qc_of_Z 220]
  = Ok [Qc_of_Z 100; Qc_of_Z (-3); Qc_of_Z 220].
Proof.
  apply (convert_fully_voiced [Qc_of_Z 100; Qc_of_Z (-3); Qc_of_Z 220]).
  - discriminate.
  - by_compute.
Defined.

(** X7: a contour with a single voiced frame becomes the constant contour
    of that frame's value. *)
Theorem convert_single_voiced (a b : nat) (s : Qc) :
  s ≠ 0%Qc →
  _convert_to_continuous_f0 (replicate a 0%Qc ++ s :: replicate b 0%Qc)
  = Ok (replicate (a + S b) s).
Proof.
  intros Hs. set (f0 := replicate a 0%Qc ++ s :: replicate b 0%Qc).
  assert (length f0 = a + S b) as Hn.
  { unfold f0. rewrite length_app. cbn. by rewrite !length_replicate. }
  assert (voiced_at f0 a s) as Hvoiced.
  { split; [|done]. unfold f0.
    by rewrite list_lookup_middle by (by rewrite length_replicate). }
  assert (∀ m, m < length f0 → m ≠ a → f0 !! m = Some 0%Qc) as Hzero.
  { intros m Hm Hma. unfold f0. destruct (decide (m < a)).
    - rewrite lookup_app_l by (rewrite length_replicate; lia).
      by apply lookup_replicate_2.
    - rewrite lookup_app_r by (rewrite length_replicate; lia).
      rewrite length_replicate.
      replace (m - a) with (S (m - a - 1)) by lia. cbn.
      apply lookup_replicate_2. lia. }
  assert (¬ Forall (λ v, v = 0%Qc) f0) as Hnz.
  { intros Hall. destruct Hvoiced as [Ha Hs'].
    by apply (Forall_lookup_1 _ _ _ _ Hall) in Ha. }
  destruct (convert_voiced f0 Hnz)
    as (out & -> & Hlen & Hkeep & Hlead & Htrail & _).
  f_equal. apply (list_eq_same_length out _ (a + S b)).
  - by rewrite length_replicate.
  - congruence.
  - intros t x y Ht Hx Hy. rewrite lookup_replicate_2 in Hy by done.
    injection Hy as <-.
    destruct (Nat.lt_trichotomy t a) as [Hlt|[->|Hgt]].
    + rewrite (Hlead a s t) in Hx; [congruence|done| |done].
      intros m Hm. apply Hzero; lia.
    + rewrite (Hkeep a s) in Hx; [congruence|done].
    + rewrite (Htrail a s t) in Hx; [congruence|done| |lia].
      intros m Hm. apply Hzero; lia.
Qed.

Lemma convert_single_voiced_witness :
  _convert_to_continuous_f0
    (replicate 2 0%Qc ++ Qc_of_Z 120 :: replicate 3 0%Qc)
  = Ok (replicate 6 (Qc_of_Z 120)).
Proof. apply (convert_single_voiced 2 3 (Qc_of_Z 120)). by_compute. Defined.

Lemma Qcle_add_nonneg (a x : Qc) : (0 ≤ x)%Qc → (a ≤ a + x)%Qc.
Proof.
  intros Hx. rewrite <-(Qcplus_0_r a) at 1. by apply Qcplus_le_mono_l.
Qed.

Lemma Qcle_sub_nonneg (a x : Qc) : (0 ≤ x)%Qc → (a - x ≤ a)%Qc.
Proof.
  intros Hx. apply Qcle_minus_iff.
  replace (a + - (a - x))%Qc with x by ring. done.
Qed.

Lemma Qcle_sub_iff (a b : Qc) : (a ≤ b)%Qc → (0 ≤ b - a)%Qc.
Proof. intros Hab. by apply Qcle_minus_iff in Hab. Qed.

(** Between two voiced frames the segment stays between their values. *)
Lemma segment_between i a j b t :
  i < t < j →
  ((a ≤ b)%Qc → (a ≤ segment i a j b t)%Qc ∧ (segment i a j b t ≤ b)%Qc) ∧
  ((b ≤ a)%Qc → (b ≤ segment i a j b t)%Qc ∧ (segment i a j b t ≤ a)%Qc).
Proof.
  intros [Hit Htj]. unfold segment.
  pose proof (Qc_sub_pos _ _ (Qc_of_nat_lt i t Hit)) as Hu.
  pose proof (Qc_sub_pos _ _ (Qc_of_nat_lt t j Htj)) as Hw.
  pose proof (Qc_sub_pos _ _ (Qc_of_nat_lt i j ltac:(lia))) as Hd.
  pose proof (Qc_of_nat_sub_ne i j ltac:(lia)) as Hne.
  set (I := Qc_of_Z (Z.of_nat i)) in *.
  set (J := Qc_of_Z (Z.of_nat j)) in *.
  set (T := Qc_of_Z (Z.of_nat t)) in *.
  assert (0 ≤ (T - I) * / (J - I))%Qc as Hup.
  { apply Qclt_le_weak, Qcmult_pos_pos; [done|by apply Qcinv_pos]. }
  assert (0 ≤ (J - T) * / (J - I))%Qc as Hdown.
  { apply Qclt_le_weak, Qcmult_pos_pos; [done|by apply Qcinv_pos]. }
  split; intros Hab%Qcle_sub_iff; split.
  - replace ((b - a) / (J - I) * (T - I) + a)%Qc
      with (a + (b - a) * ((T - I) * / (J - I)))%Qc by (by field).
    by apply Qcle_add_nonneg, Qcmult_nonneg_nonneg.
  - replace ((b - a) / (J - I) * (T - I) + a)%Qc
      with (b - (b - a) * ((J - T) * / (J - I)))%Qc by (by field).
    by apply Qcle_sub_nonneg, Qcmult_nonneg_nonneg.
  - replace ((b - a) / (J - I) * (T - I) + a)%Qc
      with (b + (a - b) * ((J - T) * / (J - I)))%Qc by (by field).
    by apply Qcle_add_nonneg, Qcmult_nonneg_nonneg.
  - replace ((b - a) / (J - I) * (T - I) + a)%Qc
      with (a - (a - b) * ((T - I) * / (J - I)))%Qc by (by field).
    by apply Qcle_sub_nonneg, Qcmult_nonneg_nonneg.
Qed.

(** X8: the conversion never overshoots: every frame of the result lies
    between the values of two voiced frames of the input. *)
Theorem convert_between_voiced (f0 : list Qc) :
  Exists (λ v, v ≠ 0%Qc) f0 →
  ∃ out,
    _convert_to_continuous_f0 f0 = Ok out ∧
    ∀ t v, out !! t = Some v →
      ∃ i a j b, voiced_at f0 i a ∧ voiced_at f0 j b ∧ i ≤ j ∧
                 (((a ≤ v)%Qc ∧ (v ≤ b)%Qc) ∨ ((b ≤ v)%Qc ∧ (v ≤ a)%Qc)).
Proof.
  intros Hnz%Exists_voiced.
  destruct (convert_voiced f0 Hnz)
    as (out & Hout & Hlen & Hkeep & Hlead & Htrail & Hgap & _).
  exists out. split; [done|]. intros t v Ht.
  pose proof (lookup_lt_Some _ _ _ Ht) as Hlt. rewrite Hlen in Hlt.
  destruct (frame_cases f0 t Hlt Hnz)
    as [[w Hw]|[(i & s & Hi & Hzero & Hti)|[(j & e & Hj & Hzero & Hjt)
        |(i & a & j & b & Hi & Hj & Hij & Hun)]]].
  - rewrite (Hkeep t w Hw) in Ht. injection Ht as <-.
    exists t, w, t, w. split_and!; try done. left. split; apply Qcle_refl.
  - rewrite (Hlead i s t Hi Hzero Hti) in Ht. injection Ht as <-.
    exists i, s, i, s. split_and!; try done. left. split; apply Qcle_refl.
  - rewrite (Htrail j e t Hj Hzero ltac:(lia)) in Ht. injection Ht as <-.
    exists j, e, j, e. split_and!; try done. left. split; apply Qcle_refl.
  - rewrite (Hgap i a j b t Hi Hj Hij Hun) in Ht. injection Ht as <-.
    exists i, a, j, b. split_and!; [done|done|lia|].
    destruct (segment_between i a j b t Hij) as [Hle Hge].
    destruct (Qclt_le_dec b a) as [Hba%Qclt_le_weak|Hab]; auto.
Qed.

Lemma convert_between_voiced_witness :
  ∃ out,
    _convert_to_continuous_f0 [Qc_of_Z 100; 0%Qc; 0%Qc; Qc_of_Z 220] = Ok out ∧
    ∃ v, out !! 1 = Some v ∧
      ∃ i a j b,
        voiced_at [Qc_of_Z 100; 0%Qc; 0%Qc; Qc_of_Z 220] i a ∧
        voiced_at [Qc_of_Z 100; 0%Qc; 0%Qc; Qc_of_Z 220] j b ∧ i ≤ j ∧
        (((a ≤ v)%Qc ∧ (v ≤ b)%Qc) ∨ ((b ≤ v)%Qc ∧ (v ≤ a)%Qc)).
Proof.
  destruct (convert_between_voiced [Qc_of_Z 100; 0%Qc; 0%Qc; Qc_of_Z 220])
    as (out & Hout & Hbetween); [by_compute|].
  exists out. split; [exact Hout|].
  assert (length out = 4) as Hlen.
  { by apply convert_length in Hout. }
  destruct (lookup_lt_is_Some_2 out 1) as [v Hv]; [lia|].
  exists v. split; [exact Hv|]. by apply (Hbetween 1 v).
Defined.

(** X10: after the conversion of an F0 contour the log step reaches every
    frame: the log of the converted contour is [np_log] of each of its
    frames. *)
Theorem convert_then_log np_log (f0 : list Qc) :
  f0_contour f0 → Exists (λ v, v ≠ 0%Qc) f0 →
  ∃ out,
    _convert_to_continuous_f0 f0 = Ok out ∧
    log_nonzero np_log out = Ok (np_log <$> out).
Proof.
  intros Hf0 Hnz%Exists_voiced.
  destruct (convert_voiced f0 Hnz) as (out & Hout & _ & _ & _ & _ & _ & _ & Hall).
  exists out. split; [done|]. rewrite log_nonzero_map. f_equal.
  apply list_fmap_ext. intros t v Hv.
  by rewrite decide_True by (by apply (Forall_lookup_1 _ _ _ _ (Hall Hf0) Hv)).
Qed.

Lemma convert_then_log_witness :
  ∃ out,
    _convert_to_continuous_f0 [0%Qc; Qc_of_Z 100; 0%Qc; Qc_of_Z 220] = Ok out ∧
    log_nonzero halve out = Ok (halve <$> out).
Proof.
  apply (convert_then_log halve [0%Qc; Qc_of_Z 100; 0%Qc; Qc_of_Z 220]);
    by_compute.
Defined.

(** ** Errors of the per-utterance extraction *)

Lemma convert_raises_iff (f0 : list Qc) :
  raises (_convert_to_continuous_f0 f0) ↔ Forall (λ v, v = 0%Qc) f0.
Proof.
  split.
  - intros [e He]. destruct (decide (Forall (λ v, v = 0%Qc) f0)) as [|Hnz]; [done|].
    destruct (convert_voiced f0 Hnz) as (out & Hout & _). congruence.
  - intros Hall. exists AssertionError.
    unfold _convert_to_continuous_f0. by rewrite decide_True.
Qed.

(** X11: [_calculate_f0] raises exactly when the continuous conversion is
    enabled and the corrected contour of the estimator has no voiced
    frame (an empty contour included), and the error is then the
    assertion error; the log step never raises. *)
Theorem calculate_f0_raises_iff dio stonemask np_log self (x : list Qc) :
  (raises (_calculate_f0 dio stonemask np_log self x) ↔
   self.(use_continuous_f0) = true ∧
   Forall (λ v, v = 0%Qc)
     (_adjust_num_frames self x
        (stonemask x
           (dio x self.(fs) self.(f0min) self.(f0max) self.(frame_period)).1
           (dio x self.(fs) self.(f0min) self.(f0max) self.(frame_period)).2
           self.(fs)))) ∧
  (raises (_calculate_f0 dio stonemask np_log self x) →
   _calculate_f0 dio stonemask np_log self x = Raise AssertionError).
Proof.
  unfold _calculate_f0.
  destruct (dio x _ _ _ _) as [f0 timeaxis]. cbn [fst snd].
  set (adjusted := _adjust_num_frames _ _ _).
  assert (∀ f1, ¬ raises ((if use_log_f0 self then log_nonzero np_log f1
                           else Ok f1) ≫= λ f2, Ok f2)) as Hlog.
  { intros f1 [e He]. destruct (use_log_f0 self); [|done].
    by rewrite log_nonzero_map in He. }
  destruct (use_continuous_f0 self).
  - destruct (decide (Forall (λ v, v = 0%Qc) adjusted)) as [Hall|Hnz].
    + assert (_convert_to_continuous_f0 adjusted = Raise AssertionError) as ->.
      { unfold _convert_to_continuous_f0. by rewrite decide_True. }
      split; [|done]. split; [done|]. intros _. by exists AssertionError.
    + destruct (convert_voiced adjusted Hnz) as (out & -> & _).
      rewrite bind_Ok. split.
      * split; [by intros ?%Hlog|by intros [_ ?]].
      * by intros ?%Hlog.
  - rewrite bind_Ok. split.
    + split; [by intros ?%Hlog|by intros [? _]].
    + by intros ?%Hlog.
Qed.

Lemma calculate_f0_raises_iff_witness :
  _calculate_f0 (λ x _ _ _ _, (silence 5, silence 5)) keep_stonemask halve
    default_config (silence 1000) = Raise AssertionError.
Proof.
  apply (calculate_f0_raises_iff (λ x _ _ _ _, (silence 5, silence 5))
           keep_stonemask halve default_config (silence 1000)).
  apply (calculate_f0_raises_iff (λ x _ _ _ _, (silence 5, silence 5))
           keep_stonemask halve default_config (silence 1000)).
  split; [reflexivity|by_compute].
Defined.

(** ** Duration averaging *)

Lemma cumsum_from_length acc d : length (cumsum_from acc d) = length d.
Proof. revert acc. induction d as [|n d IH]; intros acc; cbn; auto. Qed.

(** X12: for any durations the averaging has three outcomes: the
    assertion error when their int64 sum differs from the number of
    frames, the error of [torch.stack] when it does not and there is no
    token, and otherwise one value per token. *)
Theorem average_by_duration_outcome (x : list Qc) (d : list Z) :
  (tensor_sum d ≠ len x → _average_by_duration x d = Raise AssertionError) ∧
  (tensor_sum d = len x → d = [] →
     _average_by_duration x d = Raise RuntimeError) ∧
  (tensor_sum d = len x → d ≠ [] →
   ∃ out, _average_by_duration x d = Ok out ∧ length out = length d).
Proof.
  unfold _average_by_duration. split_and!.
  - intros Hsum. by rewrite decide_True.
  - intros Hsum ->. by rewrite decide_False by auto.
  - intros Hsum Hne. rewrite decide_False by auto.
    cbv zeta. unfold cumsum. rewrite slice_boundaries.
    match goal with |- context [torch_stack ?l] => set (x_avg := l) end.
    assert (length x_avg = length d) as Hlen.
    { unfold x_avg. rewrite length_fmap, length_zip_with. cbn [length].
      rewrite cumsum_from_length. lia. }
    exists x_avg. split; [|done].
    destruct x_avg; [|done]. destruct d; done.
Qed.

Lemma average_by_duration_outcome_witness :
  (∃ out, _average_by_duration [Qc_of_Z 1; Qc_of_Z 2] [3; -1]%Z = Ok out ∧
          length out = 2) ∧
  (∃ out, _average_by_duration [Qc_of_Z 1; Qc_of_Z 2]
            [2 ^ 63 - 1; 2 ^ 63 - 1; 4]%Z = Ok out ∧
          length out = 3) ∧
  _average_by_duration [Qc_of_Z 1; Qc_of_Z 2] [3]%Z = Raise AssertionError ∧
  _average_by_duration [] [] = Raise RuntimeError.
Proof.
  pose proof (average_by_duration_outcome [Qc_of_Z 1; Qc_of_Z 2] [3; -1]%Z)
    as (_ & _ & Hok).
  pose proof (average_by_duration_outcome [Qc_of_Z 1; Qc_of_Z 2]
                [2 ^ 63 - 1; 2 ^ 63 - 1; 4]%Z) as (_ & _ & Hwrap).
  pose proof (average_by_duration_outcome [Qc_of_Z 1; Qc_of_Z 2] [3]%Z)
    as (Hsum & _ & _).
  pose proof (average_by_duration_outcome [] []) as (_ & Hempty & _).
  split_and!.
  - apply Hok; [reflexivity|discriminate].
  - apply Hwrap; [reflexivity|discriminate].
  - apply Hsum. vm_compute. discriminate.
  - by apply Hempty.
Defined.

(** The tokens of a successful averaging, for durations that are not
    negative and a contour of fewer than [2^63] frames. *)
Lemma average_by_duration_runs (x : list Qc) (d : list Z) :
  sum_Z d = len x → (len x < 2 ^ 63)%Z → Forall (λ n, 0 ≤ n)%Z d → d ≠ [] →
  _average_by_duration x d = Ok (voiced_mean <$> runs (Z.to_nat <$> d) x).
Proof.
  intros Hsum Hlen Hd Hne. unfold _average_by_duration.
  rewrite decide_False by (rewrite tensor_sum_small by (done || lia); auto).
  pose proof (tokens_runs x d 0 (Z.le_refl 0) Hd ltac:(lia)) as Htokens.
  unfold cumsum. cbv zeta in *. rewrite slice_boundaries, Htokens.
  cbn [Z.to_nat drop]. by destruct d.
Qed.






Lemma runs_lookup lengths (x : list Qc) i n :
  lengths !! i = Some n →
  runs lengths x !! i = Some (take n (drop (sum_list (take i lengths)) x)).
Proof.
  revert x i. induction lengths as [|k lengths IH]; intros x i; [done|].
  destruct i as [|i]; cbn.
  - by intros [= ->].
  - intros Hi. rewrite (IH _ _ Hi). by rewrite drop_drop.
Qed.

(** X14: in a successful averaging over durations that are not negative
    and sum to less than [2^63], token [i] is the voiced mean of the
    frames from position [sum(d[:i])] on, [d[i]] of them; a token of
    duration zero gets the value zero. *)
Theorem average_token_window (x : list Qc) (d : list Z) out i n :
  Forall (λ n, 0 ≤ n)%Z d →
  (sum_Z d < 2 ^ 63)%Z →
  _average_by_duration x d = Ok out →
  d !! i = Some n →
  out !! i
    = Some (voiced_mean (take (Z.to_nat n)
                           (drop (Z.to_nat (sum_Z (take i d))) x))) ∧
  (n = 0%Z → out !! i = Some 0%Qc).
Proof.
  intros Hd Hsmall Hout Hi.
  assert (sum_Z d = len x) as Hsum.
  { rewrite <-(tensor_sum_small d) by done.
    destruct (decide (tensor_sum d = len x)) as [|Hne]; [done|].
    unfold _average_by_duration in Hout. by rewrite decide_True in Hout. }
  rewrite average_by_duration_runs in Hout; [|done|lia|done|by intros ->].
  injection Hout as <-.
  assert ((voiced_mean <$> runs (Z.to_nat <$> d) x) !! i
          = Some (voiced_mean (take (Z.to_nat n)
                                 (drop (Z.to_nat (sum_Z (take i d))) x))))
    as Hwin.
  { rewrite list_lookup_fmap.
    rewrite (runs_lookup _ _ i (Z.to_nat n))
      by (by rewrite list_lookup_fmap, Hi).
    cbn. do 4 f_equal. rewrite <-fmap_take.
    apply Nat2Z.inj. rewrite sum_Z_to_nat by (by apply Forall_take).
    pose proof (sum_Z_nonneg (take i d) (Forall_take _ _ _ Hd)). lia. }
  split; [done|]. intros ->. rewrite Hwin. done.
Qed.

Lemma average_token_window_witness :
  ∃ out,
    _average_by_duration
      [Qc_of_Z 1; 0%Qc; Qc_of_Z 3; 0%Qc; 0%Qc; Qc_of_Z 4] [2; 1; 0; 3]%Z
    = Ok out ∧
    out !! 2 = Some 0%Qc ∧
    out !! 3 = Some (voiced_mean [0%Qc; 0%Qc; Qc_of_Z 4]).
Proof.
  destruct (_average_by_duration
              [Qc_of_Z 1; 0%Qc; Qc_of_Z 3; 0%Qc; 0%Qc; Qc_of_Z 4]
              [2; 1; 0; 3]%Z) as [out|e] eqn:Hout.
  - exists out. split; [reflexivity|]. split.
    + apply (average_token_window
               [Qc_of_Z 1; 0%Qc; Qc_of_Z 3; 0%Qc; 0%Qc; Qc_of_Z 4]
               [2; 1; 0; 3]%Z out 2 0%Z);
        [by_compute|reflexivity|exact Hout|done..].
    + apply (average_token_window
               [Qc_of_Z 1; 0%Qc; Qc_of_Z 3; 0%Qc; 0%Qc; Qc_of_Z 4]
               [2; 1; 0; 3]%Z out 3 3%Z);
        [by_compute|reflexivity|exact Hout|done].
  - vm_compute in Hout. discriminate.
Defined.

(** ** The extraction call *)

Lemma mapM_raises {A B} (f : A → result B) l i a :
  l !! i = Some a → raises (f a) → raises (mapM f l).
Proof.
  revert i. induction l as [|a' l IH]; intros i; [done|].
  rewrite mapM_cons. destruct i as [|i]; cbn [lookup list_lookup].
  - intros [= ->] [e ->]. by exists e.
  - intros Hi Ha. destruct (f a') as [b|e]; [|by exists e].
    rewrite bind_Ok. destruct (IH i Hi Ha) as [e ->]. by exists e.
Qed.

Lemma pad_list_length xs pad_value : length (pad_list xs pad_value) = length xs.
Proof. unfold pad_list. by rewrite length_fmap. Qed.

(** X16: with token averaging enabled a successful call returns the
    caller's [durations_lengths] as valid lengths, and one sequence for
    each utterance that has a row of durations: the batch is cut to the
    shorter of [input] and [durations]. *)
Theorem forward_token_averaged dio stonemask np_log self
    (input : list (list Qc)) input_lengths durations durations_lengths
    pitch pitch_lengths :
  self.(use_token_averaged_f0) = true →
  forward dio stonemask np_log self input input_lengths (Some durations)
    durations_lengths = Ok (pitch, pitch_lengths) →
  pitch_lengths = durations_lengths ∧
  length pitch = length input `min` length durations.
Proof.
  intros Havg. unfold forward.
  destruct (mapM _ input) as [contours|] eqn:Hmap; [|discriminate].
  rewrite bind_Ok, Havg.
  destruct (mapM _ (zip contours durations)) as [tokens|] eqn:Hmap';
    [|discriminate].
  rewrite !bind_Ok. intros [= <- <-]. split; [done|].
  apply mapM_Ok_Forall2 in Hmap, Hmap'.
  rewrite pad_list_length, <-(Forall2_length _ _ _ Hmap').
  by rewrite length_zip_with, (Forall2_length _ _ _ Hmap).
Qed.

Lemma forward_token_averaged_witness :
  ∃ pitch,
    forward steady_dio keep_stonemask halve default_config
      [silence 1000; silence 1000] [1000; 1000]%Z (Some [[1; 1]%Z])
      (Some [2%Z]) = Ok (pitch, Some [2%Z]) ∧
    length pitch = 1.
Proof.
  destruct (forward steady_dio keep_stonemask halve default_config
              [silence 1000; silence 1000] [1000; 1000]%Z (Some [[1; 1]%Z])
              (Some [2%Z])) as [[pitch lengths]|e] eqn:Hcall.
  - destruct (forward_token_averaged steady_dio keep_stonemask halve
                default_config [silence 1000; silence 1000] [1000; 1000]%Z
                [[1; 1]%Z] (Some [2%Z]) pitch lengths eq_refl Hcall)
      as [-> Hrows].
    exists pitch. split; [reflexivity|exact Hrows].
  - vm_compute in Hcall. discriminate.
Defined.

(** X17: the call has no partial failure: when the extraction of one
    utterance of the batch raises, the whole call raises, in either
    mode. *)
Theorem forward_raises_with_utterance dio stonemask np_log self
    (input : list (list Qc)) input_lengths durations durations_lengths i row :
  input !! i = Some row →
  raises (_calculate_f0 dio stonemask np_log self row) →
  raises (forward dio stonemask np_log self input input_lengths durations
            durations_lengths).
Proof.
  intros Hi Hrow. unfold forward.
  destruct (mapM_raises (_calculate_f0 dio stonemask np_log self) input i row
              Hi Hrow) as [e ->].
  by exists e.
Qed.

Lemma forward_raises_with_utterance_witness :
  raises (forward (λ x _ _ _ _, (silence (length x), silence (length x)))
            keep_stonemask halve default_config
            [[Qc_of_Z 1]; silence 1000] [1; 1000]%Z
            (Some [[0%Z]; [2%Z]]) (Some [1; 1]%Z)).
Proof.
  apply (forward_raises_with_utterance
           (λ x _ _ _ _, (silence (length x), silence (length x)))
           keep_stonemask halve default_config
           [[Qc_of_Z 1]; silence 1000] [1; 1000]%Z
           (Some [[0%Z]; [2%Z]]) (Some [1; 1]%Z) 1 (silence 1000)).
  - reflexivity.
  - exists AssertionError. by_compute.
Defined.



(** ** Invariants of the per-utterance extraction *)

Lemma adjust_num_frames_contour self x (f0 : list Qc) :
  f0_contour f0 → f0_contour (_adjust_num_frames self x f0).
Proof.
  intros Hf0. unfold _adjust_num_frames, np_pad_after, slice_to, f0_contour.
  repeat case_decide; try done.
  - apply Forall_app. split; [done|]. by apply Forall_replicate.
  - by apply Forall_take.
  - by apply Forall_take.
Qed.

(** X19: whatever contour the estimator returns and whichever options are
    set, a contour returned by [_calculate_f0] has exactly the expected
    number of frames of the waveform, when that number is not
    negative. *)
Theorem calculate_f0_frames dio stonemask np_log self (x p : list Qc) :
  (0 ≤ num_frames self x)%Z →
  _calculate_f0 dio stonemask np_log self x = Ok p →
  len p = ((len x - self.(n_fft) `div` 2) `div` self.(hop_length) + 1)%Z.
Proof. intros Hpos Hp. by rewrite (calculate_f0_len _ _ _ _ _ _ Hpos Hp). Qed.

Lemma calculate_f0_frames_witness :
  ∃ p,
    _calculate_f0 steady_dio keep_stonemask halve default_config
      (silence 4410) = Ok p ∧
    len p = 16%Z.
Proof.
  destruct (_calculate_f0 steady_dio keep_stonemask halve default_config
              (silence 4410)) as [p|e] eqn:Hp.
  - exists p. split; [reflexivity|].
    apply (calculate_f0_frames steady_dio keep_stonemask halve default_config
             (silence 4410) p); [vm_compute; discriminate|exact Hp].
  - vm_compute in Hp. discriminate.
Defined.

(** X20: with the continuous conversion enabled and the log step
    disabled, a returned contour has no zero frame, provided the refined
    contour of the estimator has no negative frame: the zeros that the
    correction pads with are interpolated away as well. *)
Theorem calculate_f0_continuous dio stonemask np_log self (x p : list Qc) :
  self.(use_continuous_f0) = true → self.(use_log_f0) = false →
  f0_contour
    (stonemask x
       (dio x self.(fs) self.(f0min) self.(f0max) self.(frame_period)).1
       (dio x self.(fs) self.(f0min) self.(f0max) self.(frame_period)).2
       self.(fs)) →
  _calculate_f0 dio stonemask np_log self x = Ok p →
  Forall (λ v, v ≠ 0%Qc) p.
Proof.
  intros Hcont Hlog. unfold _calculate_f0.
  destruct (dio x _ _ _ _) as [f0 timeaxis]. cbn [fst snd].
  intros Hf0%(adjust_num_frames_contour self x). rewrite Hcont, Hlog.
  set (adjusted := _adjust_num_frames _ _ _) in *.
  destruct (decide (Forall (λ v, v = 0%Qc) adjusted)) as [Hall|Hnz].
  { apply convert_raises_iff in Hall as [e ->]. discriminate. }
  destruct (convert_voiced adjusted Hnz)
    as (out & -> & _ & _ & _ & _ & _ & _ & Hvoiced).
  rewrite !bind_Ok. intros [= <-]. by apply Hvoiced.
Qed.

Lemma calculate_f0_continuous_witness :
  ∃ p,
    _calculate_f0 (λ x _ _ _ _, ([0%Qc; Qc_of_Z 100], [0%Qc; Qc_of_Z 1]))
      keep_stonemask halve
      {| fs := 22050; n_fft := 1024; hop_length := 256;
         frame_period := (Qc_of_Z 256000 / Qc_of_Z 22050)%Qc;
         f0min := Some 80%Z; f0max := Some 400%Z;
         use_token_averaged_f0 := false;
         use_continuous_f0 := true;
         use_log_f0 := false |}
      (silence 1300) = Ok p ∧
    length p = 4 ∧ Forall (λ v, v ≠ 0%Qc) p.
Proof.
  match goal with |- ∃ p, ?call = Ok p ∧ _ =>
    destruct call as [p|e] eqn:Hp end.
  - exists p. split; [reflexivity|]. split.
    + apply calculate_f0_len in Hp; [|vm_compute; discriminate].
      apply Nat2Z.inj. exact Hp.
    + eapply (calculate_f0_continuous _ _ _ _ _ p); [..|exact Hp];
        [reflexivity|reflexivity|by_compute].
  - vm_compute in Hp. discriminate.
Defined.

(** X21: when the hop length divides [n_fft // 2], say [k] times, the
    expected frame count is [floor(n / hop_length) - k + 1]; with the
    default sizes, [k = 2], that is [floor(n / 256) - 1]. *)
Theorem num_frames_closed_form self (x : list Qc) k :
  (0 < self.(hop_length))%Z →
  (self.(n_fft) `div` 2 = k * self.(hop_length))%Z →
  num_frames self x = (len x `div` self.(hop_length) - k + 1)%Z.
Proof.
  intros Hhop Hk. unfold num_frames, samples_to_frames. rewrite Hk.
  replace (len x - k * hop_length self)%Z
    with (len x + (- k) * hop_length self)%Z by lia.
  rewrite Z.div_add by lia. lia.
Qed.

Lemma num_frames_closed_form_witness :
  num_frames plain_config (silence 4410)
  = (len (silence 4410) `div` 256 - 2 + 1)%Z.
Proof.
  apply (num_frames_closed_form plain_config (silence 4410) 2); reflexivity.
Defined.
